(** * Field-data materialisation and mapping (internal/core/src/common/Utils.h)

    A shallow embedding of [GetDataSize], [FillField], [WriteFieldData] and
    [CreateMap]: machine integers are [Z] with their wrap-around written
    out, buffers are lists of bytes, and the operating system (directories,
    files, descriptors, mappings) is an explicit state threaded through a
    small state-and-failure monad. *)

From Stdlib Require Import ZArith Lia List Strings.String Strings.Ascii Strings.Byte.
From Stdlib Require Import DecimalString DecimalPos DecimalZ.
From stdpp Require Import base option list gmap strings.

Local Open Scope Z_scope.

(** ** Machine integers (LP64: [size_t] and [ssize_t] are 64 bits wide) *)

Module Int.

(** Conversion to an unsigned type reduces modulo 2^w; conversion to a
    signed one keeps the value congruent modulo 2^w in the signed range
    (what [std::copy_n] does to each [int32_t] it stores into an [int8_t]
    or [int16_t]). *)
Definition to_size_t (z : Z) : Z := z mod 2 ^ 64.
Definition to_ssize_t (z : Z) : Z := (z + 2 ^ 63) mod 2 ^ 64 - 2 ^ 63.
Definition to_int8 (z : Z) : Z := (z + 2 ^ 7) mod 2 ^ 8 - 2 ^ 7.
Definition to_int16 (z : Z) : Z := (z + 2 ^ 15) mod 2 ^ 16 - 2 ^ 15.

Definition SIZE_MAX : Z := 2 ^ 64 - 1.
Definition SSIZE_MAX : Z := 2 ^ 63 - 1.

(** [a < b] and [a == b] with [a : ssize_t] and [b : size_t]: the usual
    arithmetic conversions turn [a] into a [size_t] first. *)
Definition lt_ssize_size (a b : Z) : bool := to_size_t a <? to_size_t b.
Definition eq_ssize_size (a b : Z) : bool := to_size_t a =? to_size_t b.

End Int.

(** ** Bytes and native representations *)

Inductive Endianness := LittleEndian | BigEndian.

Definition byte_of_Z (z : Z) : byte :=
  default x00 (Byte.of_N (Z.to_N (z mod 256))).

Definition Z_of_byte (b : byte) : Z := Z.of_N (Byte.to_N b).

Fixpoint le_bytes (width : nat) (z : Z) : list byte :=
  match width with
  | O => []
  | S w => byte_of_Z z :: le_bytes w (Z.shiftr z 8)
  end.

Fixpoint le_value (bs : list byte) : Z :=
  match bs with
  | [] => 0
  | b :: rest => Z_of_byte b + 256 * le_value rest
  end.

(** The object representation of the low [8 * width] bits of [z]. *)
Definition native_bytes (e : Endianness) (width : nat) (z : Z) : list byte :=
  match e with
  | LittleEndian => le_bytes width z
  | BigEndian => rev (le_bytes width z)
  end.

(** Reading an object representation back, unsigned and two's complement. *)
Definition native_unsigned (e : Endianness) (bs : list byte) : Z :=
  match e with
  | LittleEndian => le_value bs
  | BigEndian => le_value (rev bs)
  end.

Definition native_signed (e : Endianness) (bs : list byte) : Z :=
  let u := native_unsigned e bs in
  let m := 256 ^ Z.of_nat (length bs) in
  if 2 * u <? m then u else u - m.

Definition bool_byte (b : bool) : byte := if b then x01 else x00.

(** [std::string::size()] and [std::string::data()]. *)
Definition string_bytes (s : string) : list byte := list_byte_of_string s.
Definition string_size (s : string) : Z := Z.of_nat (length (string_bytes s)).

(** ** Logical types *)

(** Modelled from the spec: the [DataType] enumeration (common/Types.h).
    The named constructors are the enumerators Utils.h mentions; [OTHER]
    stands for every remaining enumerator, the ones only a [default:]
    branch sees. *)
Inductive DataType :=
  | BOOL | INT8 | INT16 | INT32 | INT64
  | FLOAT | DOUBLE
  | STRING | VARCHAR
  | VECTOR_BINARY | VECTOR_FLOAT
  | OTHER (code : Z).

(** The set of types the spec enumerates: boolean, 8/16/32/64-bit integer,
    32/64-bit float, string, dense float vector, binary vector. *)
Definition enumerated (t : DataType) : bool :=
  match t with
  | OTHER _ => false
  | _ => true
  end.

(** Modelled from the spec: [FieldMeta] (common/FieldMeta.h) is the column
    descriptor, a logical type together with a per-element byte width. *)
Record FieldMeta := mkFieldMeta {
  get_data_type : DataType;
  get_sizeof : Z
}.

(** Modelled from the spec: [datatype_is_variable] (common/FieldMeta.h);
    of the enumerated types only the string types are variable-width.
    The function itself is a parameter of the development, and this
    instance serves the concrete runs. *)
Definition string_types_variable (t : DataType) : bool :=
  match t with
  | STRING | VARCHAR => true
  | _ => false
  end.

(** ** The wire container *)

(** Modelled from the spec: [DataArray], the source record batch, is a
    tagged container with one case per logical type (a protobuf message:
    the accessor of a case that is not set yields the empty default).
    Integers are kept as their values, floats as their IEEE bit
    patterns. *)
Inductive ScalarField :=
  | BoolData (l : list bool)
  | IntData (l : list Z)
  | LongData (l : list Z)
  | FloatData (l : list Z)
  | DoubleData (l : list Z)
  | StringData (l : list string)
  | ScalarNotSet.

Inductive VectorField :=
  | FloatVector (l : list Z)
  | BinaryVector (b : list byte)
  | VectorNotSet.

Inductive DataArray :=
  | Scalars (s : ScalarField)
  | Vectors (v : VectorField)
  | FieldNotSet.

Definition scalars (d : DataArray) : ScalarField :=
  match d with Scalars s => s | _ => ScalarNotSet end.
Definition vectors (d : DataArray) : VectorField :=
  match d with Vectors v => v | _ => VectorNotSet end.

Definition bool_data (s : ScalarField) : list bool :=
  match s with BoolData l => l | _ => [] end.
Definition int_data (s : ScalarField) : list Z :=
  match s with IntData l => l | _ => [] end.
Definition long_data (s : ScalarField) : list Z :=
  match s with LongData l => l | _ => [] end.
Definition float_data (s : ScalarField) : list Z :=
  match s with FloatData l => l | _ => [] end.
Definition double_data (s : ScalarField) : list Z :=
  match s with DoubleData l => l | _ => [] end.
Definition string_data (s : ScalarField) : list string :=
  match s with StringData l => l | _ => [] end.
Definition float_vector (v : VectorField) : list Z :=
  match v with FloatVector l => l | _ => [] end.
Definition binary_vector (v : VectorField) : list byte :=
  match v with BinaryVector b => b | _ => [] end.

(** ** Failures *)

Definition Path := list string.

(** One constructor per [PanicInfo]/[AssertInfo] site, with the values its
    message formats. *)
Inductive Failure :=
  | NotSupportedDataType (t : DataType)
  | Unsupported
  | AnonMapFailed
  | CreateDirectoriesFailed (dir : Path)
  | CreateFileFailed (file : Path)
  | WriteFailed (file : Path) (written total : Z)
  | FsyncFailed (file : Path)
  | FileMapFailed (file : Path)
  | UnlinkFailed (file : Path)
  | CloseFailed (file : Path).

(** A call returns, raises, or leaves the language's defined behaviour
    (a copy that reads or writes past the end of a buffer). *)
Inductive outcome (A : Type) :=
  | Ret (a : A)
  | Panic (e : Failure)
  | Undefined.
Arguments Ret {A} a.
Arguments Panic {A} e.
Arguments Undefined {A}.

Definition len {A} (l : list A) : Z := Z.of_nat (length l).

(** ** The operating system *)

(** A pointer as [CreateMap] handles it: [nullptr], [MAP_FAILED], or the
    base address of a mapping. *)
Inductive ptr :=
  | Null
  | MapFailed
  | Addr (a : nat).

Record Mapping := mkMapping {
  map_bytes : list byte;
  map_writable : bool;
  map_backing : option nat
}.

(** What the kernel answers to a [write]: fewer bytes than asked, or -1. *)
Inductive WriteAnswer :=
  | WriteShort (n : Z)
  | WriteError.

(** The answers the environment is going to give.  A [write] takes the
    next entry of [writes_plan]; with none left it writes its buffer
    fully.  The other calls succeed exactly when their flag is set and
    their arguments are valid. *)
Record Responses := mkResponses {
  mkdir_ok : bool;
  open_ok : bool;
  writes_plan : list WriteAnswer;
  fsync_ok : bool;
  mmap_ok : bool;
  unlink_ok : bool;
  close_ok : bool
}.

Definition cooperative : Responses :=
  mkResponses true true [] true true true true.

Inductive Syscall :=
  | SysCreateDirectories (dir : Path)
  | SysOpen (file : Path) (ret : Z)
  | SysWrite (fd : Z) (count : Z) (ret : Z)
  | SysFsync (fd : Z) (ret : Z)
  | SysMmapAnon (length : Z) (ret : ptr)
  | SysMmapFile (fd : Z) (length : Z) (ret : ptr)
  | SysUnlink (file : Path) (ret : Z)
  | SysClose (fd : Z) (ret : Z).

(** [SysMmapAnon] is the only call that does not go to the filesystem. *)
Definition is_filesystem_call (c : Syscall) : bool :=
  match c with
  | SysMmapAnon _ _ => false
  | _ => true
  end.

Record World := mkWorld {
  dirs : gset Path;
  names : gmap Path nat;
  inodes : gmap nat (list byte);
  fds : gmap Z nat;
  maps : gmap nat Mapping;
  os : Responses;
  log : list Syscall
}.

(** The part of the state that is the filesystem. *)
Definition filesystem (w : World)
  : gset Path * gmap Path nat * gmap nat (list byte) * gmap Z nat :=
  (dirs w, names w, inodes w, fds w).

Definition empty_world (r : Responses) : World :=
  mkWorld ∅ ∅ ∅ ∅ ∅ r [].

Definition record_call (c : Syscall) (w : World) : World :=
  mkWorld (dirs w) (names w) (inodes w) (fds w) (maps w) (os w)
          (log w ++ [c]).

Definition set_os (r : Responses) (w : World) : World :=
  mkWorld (dirs w) (names w) (inodes w) (fds w) (maps w) r (log w).

Definition set_maps (m : gmap nat Mapping) (w : World) : World :=
  mkWorld (dirs w) (names w) (inodes w) (fds w) m (os w) (log w).

(** State and failure: a computation runs in a world and leaves a world,
    also when it raises. *)
Definition M (A : Type) : Type := World -> outcome A * World.

#[global] Instance M_ret : MRet M := fun A a w => (Ret a, w).
#[global] Instance M_bind : MBind M := fun A B f m w =>
  match m w with
  | (Ret a, w') => f a w'
  | (Panic e, w') => (Panic e, w')
  | (Undefined, w') => (Undefined, w')
  end.

Definition lift {A} (o : outcome A) : M A := fun w => (o, w).

(** [AssertInfo(cond, msg)] *)
Definition AssertInfo (cond : bool) (e : Failure) : M unit :=
  if cond then mret tt else lift (Panic e).

(** A descriptor, an inode number or an address that is not in use. *)
Definition fresh_nat {V} (m : gmap nat V) : nat := fresh (dom m).
Definition fresh_fd (m : gmap Z nat) : Z :=
  Z.of_nat (fresh (set_map (C := gset Z) (D := gset nat) Z.to_nat (dom m))).

(** [std::filesystem::create_directories]: every missing ancestor is
    created; it throws when an ancestor is a regular file or the
    environment refuses. *)
Definition ancestors (dir : Path) : list Path :=
  map (fun n => take n dir) (seq 1 (length dir)).

Definition create_directories (dir : Path) : M unit := fun w =>
  let w := record_call (SysCreateDirectories dir) w in
  if mkdir_ok (os w)
     && forallb (fun p => bool_decide (names w !! p = None)) (ancestors dir)
  then (Ret tt,
        mkWorld (dirs w ∪ list_to_set (ancestors dir)) (names w) (inodes w)
                (fds w) (maps w) (os w) (log w))
  else (Panic (CreateDirectoriesFailed dir), w).

(** [open(path, O_CREAT | O_TRUNC | O_RDWR, S_IRUSR | S_IWUSR)] *)
Definition sys_open (file : Path) : M Z := fun w =>
  if open_ok (os w)
     && bool_decide (file ∉ dirs w)
     && bool_decide (take (length file - 1) file ∈ dirs w)
  then
    let fd := fresh_fd (fds w) in
    let ino := default (fresh_nat (inodes w)) (names w !! file) in
    (Ret fd,
     record_call (SysOpen file fd)
       (mkWorld (dirs w) (<[file := ino]> (names w))
                (<[ino := []]> (inodes w)) (<[fd := ino]> (fds w))
                (maps w) (os w) (log w)))
  else (Ret (-1), record_call (SysOpen file (-1)) w).

Definition file_content (w : World) (ino : nat) : list byte :=
  default [] (inodes w !! ino).

Definition append_to_file (ino : nat) (bs : list byte) (w : World) : World :=
  mkWorld (dirs w) (names w) (<[ino := file_content w ino ++ bs]> (inodes w))
          (fds w) (maps w) (os w) (log w).

Definition next_write_answer (w : World) : option WriteAnswer * World :=
  let r := os w in
  (head (writes_plan r),
   set_os (mkResponses (mkdir_ok r) (open_ok r) (tail (writes_plan r))
             (fsync_ok r) (mmap_ok r) (unlink_ok r) (close_ok r)) w).

(** [write(fd, buf, count)], where [buf] is the whole buffer the pointer
    leads into.  The descriptor was opened on a truncated file and is the
    only writer, so the file offset is the end of the file. *)
Definition sys_write (fd : Z) (buf : list byte) (count : Z) : M Z := fun w =>
  if len buf <? count then (Undefined, w)
  else
    let '(answer, w) := next_write_answer w in
    match fds w !! fd, answer with
    | Some ino, None =>
        (Ret count,
         record_call (SysWrite fd count count)
           (append_to_file ino (take (Z.to_nat count) buf) w))
    | Some ino, Some (WriteShort k) =>
        let n := Z.min (Z.max k 0) count in
        (Ret n,
         record_call (SysWrite fd count n)
           (append_to_file ino (take (Z.to_nat n) buf) w))
    | _, _ => (Ret (-1), record_call (SysWrite fd count (-1)) w)
    end.

Definition sys_fsync (fd : Z) : M Z := fun w =>
  let ret := if fsync_ok (os w) && bool_decide (is_Some (fds w !! fd))
             then 0 else -1 in
  (Ret ret, record_call (SysFsync fd ret) w).

(** [mmap(NULL, length, PROT_READ | PROT_WRITE, MAP_PRIVATE | MAP_ANON, -1, 0)]:
    zero-filled memory; a zero length is refused. *)
Definition sys_mmap_anon (length : Z) : M ptr := fun w =>
  if mmap_ok (os w) && (0 <? length)
  then
    let a := fresh_nat (maps w) in
    (Ret (Addr a),
     record_call (SysMmapAnon length (Addr a))
       (set_maps (<[a := mkMapping (replicate (Z.to_nat length) x00) true None]>
                    (maps w)) w))
  else (Ret MapFailed, record_call (SysMmapAnon length MapFailed) w).

(** [mmap(NULL, length, PROT_READ, MAP_PRIVATE, fd, 0)]: the first
    [length] bytes of the file as they are at the time of the call. *)
Definition sys_mmap_file (fd : Z) (length : Z) : M ptr := fun w =>
  match fds w !! fd with
  | Some ino =>
      if mmap_ok (os w) && (0 <? length)
      then
        let a := fresh_nat (maps w) in
        (Ret (Addr a),
         record_call (SysMmapFile fd length (Addr a))
           (set_maps (<[a := mkMapping
                              (take (Z.to_nat length) (file_content w ino))
                              false (Some ino)]> (maps w)) w))
      else (Ret MapFailed, record_call (SysMmapFile fd length MapFailed) w)
  | None => (Ret MapFailed, record_call (SysMmapFile fd length MapFailed) w)
  end.

Definition sys_unlink (file : Path) : M Z := fun w =>
  if unlink_ok (os w) && bool_decide (is_Some (names w !! file))
  then (Ret 0,
        record_call (SysUnlink file 0)
          (mkWorld (dirs w) (delete file (names w)) (inodes w) (fds w)
                   (maps w) (os w) (log w)))
  else (Ret (-1), record_call (SysUnlink file (-1)) w).

Definition sys_close (fd : Z) : M Z := fun w =>
  if close_ok (os w) && bool_decide (is_Some (fds w !! fd))
  then (Ret 0,
        record_call (SysClose fd 0)
          (mkWorld (dirs w) (names w) (inodes w) (delete fd (fds w))
                   (maps w) (os w) (log w)))
  else (Ret (-1), record_call (SysClose fd (-1)) w).

(** [std::to_string] of an [int64_t]. *)
Definition to_string (z : Z) : string := NilZero.string_of_int (Z.to_int z).

(** [memcpy(dst, src, n)] on the buffers the two pointers lead into; the
    result is the destination buffer afterwards. *)
Definition memcpy (dst src : list byte) (n : Z) : outcome (list byte) :=
  if (n <=? len src) && (n <=? len dst)
  then Ret (take (Z.to_nat n) src ++ drop (Z.to_nat n) dst)
  else Undefined.

(** [memcpy(dst + off, src, |src|)] *)
Definition memcpy_at (dst : list byte) (off : Z) (src : list byte)
  : outcome (list byte) :=
  if off + len src <=? len dst
  then Ret (take (Z.to_nat off) dst ++ src
            ++ drop (Z.to_nat (off + len src)) dst)
  else Undefined.

(** Modelled from the spec: [LoadFieldDataInfo] (common/LoadInfo.h) is the
    load request: field identifier, row count, optional mapping directory
    and the source batch. *)
Record LoadFieldDataInfo := mkLoadFieldDataInfo {
  field_id : Z;
  row_count : Z;
  mmap_dir_path : option Path;
  field_data : DataArray
}.

(** The total byte length of a string sequence, as a mathematical sum. *)
Definition total_size (l : list string) : Z :=
  foldr (fun s acc => string_size s + acc) 0 l.

(** ** Integer rounding utilities *)

(** [Assert(cond)] raises; signed [int64_t] arithmetic that leaves the
    range is undefined. *)
Inductive checked (A : Type) :=
  | Done (a : A)
  | AssertFailed
  | SignedOverflow.
Arguments Done {A} a.
Arguments AssertFailed {A}.
Arguments SignedOverflow {A}.

Definition INT64_MIN : Z := - 2 ^ 63.
Definition INT64_MAX : Z := 2 ^ 63 - 1.

Definition in_int64 (z : Z) : bool := (INT64_MIN <=? z) && (z <=? INT64_MAX).

(** The value of an [int64_t] expression, when it is representable. *)
Definition int64 (z : Z) : checked Z :=
  if in_int64 z then Done z else SignedOverflow.

Definition checked_bind {A B} (c : checked A) (f : A -> checked B) : checked B :=
  match c with
  | Done a => f a
  | AssertFailed => AssertFailed
  | SignedOverflow => SignedOverflow
  end.

(** [value / align + (value % align != 0)]: C++ division truncates
    towards zero, the remainder has the sign of the dividend. *)
Definition upper_groups (value align : Z) : checked Z :=
  int64 (Z.quot value align + (if Z.rem value align =? 0 then 0 else 1)).

Definition upper_align (value align : Z) : checked Z :=
  if 0 <? align then
    checked_bind (upper_groups value align) (fun groups =>
    int64 (groups * align))
  else AssertFailed.

Definition upper_div (value align : Z) : checked Z :=
  if 0 <? align then upper_groups value align
  else AssertFailed.

(** ** C strings and string views *)

(** A [const char*] is the list of the bytes from the pointer to the end
    of the array it points into; reading beyond it is undefined. *)
Fixpoint strncmp (s1 s2 : list byte) (n : nat) {struct n} : outcome Z :=
  match n with
  | O => Ret 0
  | S n' =>
      match s1, s2 with
      | c1 :: r1, c2 :: r2 =>
          if Z_of_byte c1 =? Z_of_byte c2
          then if Z_of_byte c1 =? 0 then Ret 0 else strncmp r1 r2 n'
          else Ret (Z_of_byte c1 - Z_of_byte c2)
      | _, _ => Undefined
      end
  end.

(** [std::string_view]: [data()] and [length()]. *)
Record string_view := mk_string_view {
  sv_data : list byte;
  sv_length : nat
}.

Definition sv_chars (v : string_view) : list byte :=
  take (sv_length v) (sv_data v).

(** [std::string::c_str()]: the characters and the terminator. *)
Definition c_str (s : string) : list byte := string_bytes s ++ [x00].

(** The view of a whole [std::string]. *)
Definition view_of (s : string) : string_view :=
  mk_string_view (c_str s) (length (string_bytes s)).

Definition PrefixMatch (str prefix : string_view) : outcome bool :=
  match strncmp (sv_data str) (sv_data prefix) (sv_length prefix) with
  | Ret ret => if negb (ret =? 0) then Ret false else Ret true
  | Panic e => Panic e
  | Undefined => Undefined
  end.

(** [int offset = str.length() - postfix.length()] *)
Definition to_int32 (z : Z) : Z := (z + 2 ^ 31) mod 2 ^ 32 - 2 ^ 31.

Definition PostfixMatch (str : string_view) (postfix : string) : outcome bool :=
  if Z.of_nat (sv_length str) <? string_size postfix then Ret false
  else
    let offset :=
      to_int32 (Int.to_size_t (Z.of_nat (sv_length str) - string_size postfix)) in
    if (offset <? 0) || (len (sv_data str) <? offset) then Undefined
    else
      match strncmp (drop (Z.to_nat offset) (sv_data str)) (c_str postfix)
              (length (string_bytes postfix)) with
      | Ret ret => if negb (ret =? 0) then Ret false else Ret true
      | Panic e => Panic e
      | Undefined => Undefined
      end.

(** [tolower] in the "C" locale. *)
Definition tolower (b : byte) : Z :=
  let c := Z_of_byte b in
  if (65 <=? c) && (c <=? 90) then c + 32 else c.

Fixpoint strcasecmp (s1 s2 : list byte) : outcome Z :=
  match s1, s2 with
  | c1 :: r1, c2 :: r2 =>
      if tolower c1 =? tolower c2
      then if Z_of_byte c1 =? 0 then Ret 0 else strcasecmp r1 r2
      else Ret (tolower c1 - tolower c2)
  | _, _ => Undefined
  end.

Definition IsMetricType (str metric_type : string) : outcome bool :=
  match strcasecmp (c_str str) (c_str metric_type) with
  | Ret ret => Ret (ret =? 0)
  | Panic e => Panic e
  | Undefined => Undefined
  end.

(** [knowhere::metric::IP] is a constant of the knowhere library; it is
    the argument [metric_IP] here. *)
Definition PositivelyRelated (metric_IP metric_type : string) : outcome bool :=
  IsMetricType metric_type metric_IP.

(** The characters of a C string: those before the first terminator. *)
Fixpoint until_nul (l : list byte) : list byte :=
  match l with
  | [] => []
  | c :: r => if Z_of_byte c =? 0 then [] else c :: until_nul r
  end.

#[global] Instance byte_eq_decision : EqDecision byte := Byte.byte_eq_dec.

(** ** Error texts *)

(** [knowhere::Status]: the enumerators the switch names, and any other
    value. *)
Inductive Status :=
  | invalid_args | invalid_param_in_json | out_of_range_in_json
  | type_conflict_in_json | invalid_metric_type | empty_index
  | not_implemented | index_not_trained | index_already_trained
  | faiss_inner_error | annoy_inner_error | hnsw_inner_error
  | malloc_error | diskann_inner_error | diskann_file_error
  | invalid_value_in_json | arithmetic_overflow
  | other_status (code : Z).

Definition MatchKnowhereError (status : Status) : string :=
  match status with
  | invalid_args => "err: invalid args"
  | invalid_param_in_json => "err: invalid param in json"
  | out_of_range_in_json => "err: out of range in json"
  | type_conflict_in_json => "err: type conflict in json"
  | invalid_metric_type => "err: invalid metric type"
  | empty_index => "err: empty index"
  | not_implemented => "err: not implemented"
  | index_not_trained => "err: index not trained"
  | index_already_trained => "err: index already trained"
  | faiss_inner_error => "err: faiss inner error"
  | annoy_inner_error => "err: annoy inner error"
  | hnsw_inner_error => "err: hnsw inner error"
  | malloc_error => "err: malloc error"
  | diskann_inner_error => "err: diskann inner error"
  | diskann_file_error => "err: diskann file error"
  | invalid_value_in_json => "err: invalid value in json"
  | arithmetic_overflow => "err: arithmetic overflow"
  | other_status _ => "not match the error type in knowhere"
  end.

Definition named_status (s : Status) : bool :=
  match s with other_status _ => false | _ => true end.

(** ** Sample inputs *)

Definition sample_dir : Path := ["var"; "mmap"]%string.

Definition int32_field : FieldMeta := mkFieldMeta INT32 4.
Definition varchar_field : FieldMeta := mkFieldMeta VARCHAR 4.

Definition three_strings : DataArray :=
  Scalars (StringData ["ab"; EmptyString; "cde"]%string).
Definition two_strings : DataArray :=
  Scalars (StringData ["ab"; "cde"]%string).
Definition boundary_ints : DataArray :=
  Scalars (IntData [127; -128; 32767; -32768]).

(** A file-backed request for an int32 column without rows. *)
Definition empty_file_request : LoadFieldDataInfo :=
  mkLoadFieldDataInfo 101 0 (Some sample_dir) (Scalars (IntData [])).

(** A file-backed request for two int32 rows. *)
Definition int32_file_request : LoadFieldDataInfo :=
  mkLoadFieldDataInfo 101 2 (Some sample_dir) (Scalars (IntData [1; 2])).

(** A file-backed request for a one-row string column. *)
Definition varchar_file_request : LoadFieldDataInfo :=
  mkLoadFieldDataInfo 102 3 (Some sample_dir)
    (Scalars (StringData ["ab"]%string)).

Definition strings_request : LoadFieldDataInfo :=
  mkLoadFieldDataInfo 102 3 None three_strings.

Definition boundary_request : LoadFieldDataInfo :=
  mkLoadFieldDataInfo 103 4 None boundary_ints.

(** The view of the first two characters of the array "abcd". *)
Definition ab_of_abcd : string_view :=
  mk_string_view (string_bytes "abcd") 2.

(** The five characters a, b, NUL, c, d. *)
Definition ab_nul_cd : string_view :=
  mk_string_view ([x61; x62] ++ x00 :: [x63; x64]) 5.

(** An environment that answers the [write] calls as planned and is
    cooperative otherwise. *)
Definition answering (plan : list WriteAnswer) : Responses :=
  mkResponses true true plan true true true true.

(** A world in which descriptor 3 is open on the empty file "data". *)
Definition open_file_world (plan : list WriteAnswer) : World :=
  mkWorld ∅ {[ ["data"%string] := 0%nat ]} {[ 0%nat := [] ]}
          {[ 3 := 0%nat ]} ∅ (answering plan) [].

(** ** GetDataSize *)

Section Materialise.

Variable datatype_is_variable : DataType -> bool.
Variable byte_order : Endianness.

(** The [while (begin != end)] accumulation into [ssize_t size]. *)
Definition sum_string_sizes (l : list string) : Z :=
  fold_left (fun size s => Int.to_ssize_t (size + string_size s)) l 0.

Definition GetDataSize (field : FieldMeta) (row_count : Z)
    (data : DataArray) : outcome Z :=
  let data_type := get_data_type field in
  if datatype_is_variable data_type then
    match data_type with
    | VARCHAR | STRING =>
        Ret (Int.to_size_t
               (sum_string_sizes (string_data (scalars data))))
    | _ => Panic (NotSupportedDataType data_type)
    end
  else Ret (Int.to_size_t (get_sizeof field * row_count)).


(** ** FillField *)

(** The array a repeated field of [width]-byte elements points to. *)
Definition elements_buffer (width : nat) (l : list Z) : list byte :=
  concat (map (native_bytes byte_order width) l).

Fixpoint copy_strings (l : list string) (dest : Z) (dst : list byte)
  : outcome (list byte) :=
  match l with
  | [] => Ret dst
  | s :: rest =>
      match memcpy_at dst dest (string_bytes s) with
      | Ret dst' => copy_strings rest (dest + string_size s) dst'
      | Panic e => Panic e
      | Undefined => Undefined
      end
  end.

(** [dst] is the region the destination pointer leads into; the result is
    that region after the call. *)
Definition FillField (data_type : DataType) (size : Z)
    (info : LoadFieldDataInfo) (dst : list byte) : outcome (list byte) :=
  let data := field_data info in
  match data_type with
  | BOOL => memcpy dst (map bool_byte (bool_data (scalars data))) size
  | INT8 =>
      let src_data := int_data (scalars data) in
      let data_raw := map Int.to_int8 src_data in
      memcpy dst (elements_buffer 1 data_raw) size
  | INT16 =>
      let src_data := int_data (scalars data) in
      let data_raw := map Int.to_int16 src_data in
      memcpy dst (elements_buffer 2 data_raw) size
  | INT32 => memcpy dst (elements_buffer 4 (int_data (scalars data))) size
  | INT64 => memcpy dst (elements_buffer 8 (long_data (scalars data))) size
  | FLOAT => memcpy dst (elements_buffer 4 (float_data (scalars data))) size
  | DOUBLE => memcpy dst (elements_buffer 8 (double_data (scalars data))) size
  | VARCHAR => copy_strings (string_data (scalars data)) 0 dst
  | VECTOR_FLOAT =>
      memcpy dst (elements_buffer 4 (float_vector (vectors data))) size
  | VECTOR_BINARY => memcpy dst (binary_vector (vectors data)) size
  | _ => Panic Unsupported
  end.

(** ** WriteFieldData *)

Fixpoint write_strings (fd : Z) (l : list string) (total_written : Z) : M Z :=
  match l with
  | [] => mret total_written
  | s :: rest =>
      written ← sys_write fd (string_bytes s) (string_size s);
      if Int.lt_ssize_size written (string_size s)
      then mret total_written
      else write_strings fd rest (Int.to_ssize_t (total_written + written))
  end.

Definition WriteFieldData (fd : Z) (data_type : DataType) (data : DataArray)
    (size : Z) : M Z :=
  match data_type with
  | BOOL => sys_write fd (map bool_byte (bool_data (scalars data))) size
  | INT8 =>
      let src_data := int_data (scalars data) in
      let data_raw := map Int.to_int8 src_data in
      sys_write fd (elements_buffer 1 data_raw) size
  | INT16 =>
      let src_data := int_data (scalars data) in
      let data_raw := map Int.to_int16 src_data in
      sys_write fd (elements_buffer 2 data_raw) size
  | INT32 => sys_write fd (elements_buffer 4 (int_data (scalars data))) size
  | INT64 => sys_write fd (elements_buffer 8 (long_data (scalars data))) size
  | FLOAT => sys_write fd (elements_buffer 4 (float_data (scalars data))) size
  | DOUBLE =>
      sys_write fd (elements_buffer 8 (double_data (scalars data))) size
  | VARCHAR => write_strings fd (string_data (scalars data)) 0
  | VECTOR_FLOAT =>
      sys_write fd (elements_buffer 4 (float_vector (vectors data))) size
  | VECTOR_BINARY => sys_write fd (binary_vector (vectors data)) size
  | _ => lift (Panic Unsupported)
  end.

(** ** CreateMap *)

(** [FillField(data_type, size, info, map)] on mapped memory. *)
Definition fill_mapping (data_type : DataType) (size : Z)
    (info : LoadFieldDataInfo) (map : ptr) : M unit := fun w =>
  match map with
  | Addr a =>
      match maps w !! a with
      | Some m =>
          match FillField data_type size info (map_bytes m) with
          | Ret bytes =>
              (Ret tt,
               set_maps (<[a := mkMapping bytes (map_writable m)
                                   (map_backing m)]> (maps w)) w)
          | Panic e => (Panic e, w)
          | Undefined => (Undefined, w)
          end
      | None => (Undefined, w)
      end
  | _ => (Undefined, w)
  end.

Definition ptr_eqb (p q : ptr) : bool :=
  match p, q with
  | Null, Null | MapFailed, MapFailed => true
  | Addr a, Addr b => Nat.eqb a b
  | _, _ => false
  end.

(** The loop that touches one byte per page where [MAP_POPULATE] is
    missing reads and discards; it has no counterpart here. *)
Definition CreateMap (segment_id : Z) (field_meta : FieldMeta)
    (info : LoadFieldDataInfo) : M ptr :=
  match mmap_dir_path info with
  | None =>
      let data_type := get_data_type field_meta in
      data_size ← lift (GetDataSize field_meta
                          (Int.to_size_t (row_count info)) (field_data info));
      if data_size =? 0 then mret Null
      else
        map ← sys_mmap_anon data_size;
        AssertInfo (negb (ptr_eqb map MapFailed)) AnonMapFailed;;
        fill_mapping data_type data_size info map;;
        mret map
  | Some mmap_dir =>
      let filepath :=
        mmap_dir ++ [to_string segment_id; to_string (field_id info)] in
      let dir := take (length filepath - 1) filepath in
      create_directories dir;;
      fd ← sys_open filepath;
      AssertInfo (negb (fd =? -1)) (CreateFileFailed filepath);;
      let data_type := get_data_type field_meta in
      let size := Int.to_size_t (get_sizeof field_meta * row_count info) in
      written ← WriteFieldData fd data_type (field_data info) size;
      AssertInfo
        (Int.eq_ssize_size written size
         || negb (written =? -1)
            && datatype_is_variable (get_data_type field_meta))
        (WriteFailed filepath written size);;
      ok ← sys_fsync fd;
      AssertInfo (ok =? 0) (FsyncFailed filepath);;
      if written =? 0 then mret Null
      else
        map ← sys_mmap_file fd (Int.to_size_t written);
        AssertInfo (negb (ptr_eqb map MapFailed)) (FileMapFailed filepath);;
        ok ← sys_unlink filepath;
        AssertInfo (ok =? 0) (UnlinkFailed filepath);;
        ok ← sys_close fd;
        AssertInfo (ok =? 0) (CloseFailed filepath);;
        mret map
  end.

(** What is left of the file-backed path once the write has returned. *)
Definition after_write (filepath : Path) (fd written : Z) : M ptr :=
  ok ← sys_fsync fd;
  AssertInfo (ok =? 0) (FsyncFailed filepath);;
  if written =? 0 then mret Null
  else
    map ← sys_mmap_file fd (Int.to_size_t written);
    AssertInfo (negb (ptr_eqb map MapFailed)) (FileMapFailed filepath);;
    ok ← sys_unlink filepath;
    AssertInfo (ok =? 0) (UnlinkFailed filepath);;
    ok ← sys_close fd;
    AssertInfo (ok =? 0) (CloseFailed filepath);;
    mret map.

(** A [write] on descriptor [fd]. *)
Definition is_write_of (fd : Z) (c : Syscall) : Prop :=
  exists count ret, c = SysWrite fd count ret.

(** [w'] is [w] after further calls, each of which satisfies [P]. *)
Definition extends (P : Syscall -> Prop) (w w' : World) : Prop :=
  exists calls, log w' = log w ++ calls /\ Forall P calls.

(** A call that, if it is a [write], asks for [size] bytes. *)
Definition asks_for (size : Z) (c : Syscall) : Prop :=
  forall fd count ret, c = SysWrite fd count ret -> count = size.

(** The types the two materialisers have a case for. *)
Definition materialised (t : DataType) : bool :=
  match t with
  | BOOL | INT8 | INT16 | INT32 | INT64 | FLOAT | DOUBLE | VARCHAR
  | VECTOR_FLOAT | VECTOR_BINARY => true
  | _ => false
  end.

(** The types copied without conversion from a repeated field of
    fixed-width numbers: the element width and the elements. *)
Definition raw_elements (t : DataType) (data : DataArray)
  : option (nat * list Z) :=
  match t with
  | INT32 => Some (4%nat, int_data (scalars data))
  | INT64 => Some (8%nat, long_data (scalars data))
  | FLOAT => Some (4%nat, float_data (scalars data))
  | DOUBLE => Some (8%nat, double_data (scalars data))
  | VECTOR_FLOAT => Some (4%nat, float_vector (vectors data))
  | _ => None
  end.



(** The calls the tail of the file-backed path makes. *)
Definition is_tail_call (c : Syscall) : Prop :=
  match c with
  | SysFsync _ _ | SysMmapFile _ _ _ | SysUnlink _ _ | SysClose _ _ => True
  | _ => False
  end.

(** A call that, if it is an [open], opens [file]. *)
Definition opens_only (file : Path) (c : Syscall) : Prop :=
  forall p fd, c = SysOpen p fd -> p = file.

(** * Properties *)

(** ** Integer conversions *)

Lemma to_size_t_small z : 0 <= z <= Int.SIZE_MAX -> Int.to_size_t z = z.
Proof.
  unfold Int.to_size_t, Int.SIZE_MAX. intros Hz.
  apply Z.mod_small. lia.
Qed.

Lemma to_ssize_t_small z :
  - 2 ^ 63 <= z <= Int.SSIZE_MAX -> Int.to_ssize_t z = z.
Proof.
  unfold Int.to_ssize_t, Int.SSIZE_MAX. intros Hz.
  rewrite Z.mod_small by lia. lia.
Qed.

Lemma to_size_t_of_ssize_t z : Int.to_size_t (Int.to_ssize_t z) = Int.to_size_t z.
Proof.
  unfold Int.to_size_t, Int.to_ssize_t.
  rewrite Zminus_mod, Zmod_mod, <- Zminus_mod.
  f_equal. lia.
Qed.

Lemma to_size_t_add_l a b :
  Int.to_size_t (Int.to_size_t a + b) = Int.to_size_t (a + b).
Proof. unfold Int.to_size_t. apply Zplus_mod_idemp_l. Qed.

Lemma string_size_nonneg s : 0 <= string_size s.
Proof. unfold string_size. lia. Qed.

Lemma total_size_nonneg l : 0 <= total_size l.
Proof.
  induction l as [|s l IH]; simpl; [lia|].
  pose proof (string_size_nonneg s). lia.
Qed.

(** ** Properties of GetDataSize *)

Lemma fold_string_sizes l acc :
  Int.to_size_t
    (fold_left (fun size s => Int.to_ssize_t (size + string_size s)) l acc)
  = Int.to_size_t (acc + total_size l).
Proof.
  revert acc. induction l as [|s l IH]; intros acc; simpl.
  - f_equal. lia.
  - rewrite IH.
    rewrite <- to_size_t_add_l, to_size_t_of_ssize_t, to_size_t_add_l.
    f_equal. lia.
Qed.

Lemma sum_string_sizes_total l :
  Int.to_size_t (sum_string_sizes l) = Int.to_size_t (total_size l).
Proof. unfold sum_string_sizes. now rewrite fold_string_sizes. Qed.

Lemma GetDataSize_fixed field N data :
  datatype_is_variable (get_data_type field) = false ->
  GetDataSize field N data = Ret (Int.to_size_t (get_sizeof field * N)).
Proof. intros Hfix. unfold GetDataSize. now rewrite Hfix. Qed.

Lemma GetDataSize_string field N data :
  datatype_is_variable (get_data_type field) = true ->
  get_data_type field = VARCHAR \/ get_data_type field = STRING ->
  GetDataSize field N data
  = Ret (Int.to_size_t (total_size (string_data (scalars data)))).
Proof.
  intros Hvar Hty. unfold GetDataSize. rewrite Hvar.
  rewrite sum_string_sizes_total.
  destruct Hty as [-> | ->]; reflexivity.
Qed.

(** C1.  Size correctness.  For a fixed-width descriptor and row count
    [N], [GetDataSize] returns [N] times the per-element width (the
    [size_t] product, which is the exact product whenever that fits);
    for a VARCHAR or STRING column it returns the sum of the byte lengths
    of the batch's strings, whatever the row count. *)
Theorem GetDataSize_size_correct (field : FieldMeta) (N : Z) (data : DataArray) :
  (datatype_is_variable (get_data_type field) = false ->
   GetDataSize field N data = Ret (Int.to_size_t (N * get_sizeof field)) /\
   (0 <= N * get_sizeof field <= Int.SIZE_MAX ->
    GetDataSize field N data = Ret (N * get_sizeof field)))
  /\
  (datatype_is_variable (get_data_type field) = true ->
   get_data_type field = VARCHAR \/ get_data_type field = STRING ->
   let total := total_size (string_data (scalars data)) in
   GetDataSize field N data = Ret (Int.to_size_t total) /\
   (total <= Int.SIZE_MAX -> GetDataSize field N data = Ret total) /\
   (forall N', GetDataSize field N' data = GetDataSize field N data)).
Proof.
  split.
  - intros Hfix. rewrite (GetDataSize_fixed _ _ _ Hfix), (Z.mul_comm N).
    split; [reflexivity|].
    intros Hfit. now rewrite to_size_t_small.
  - intros Hvar Hty total. rewrite (GetDataSize_string _ _ _ Hvar Hty).
    split; [reflexivity|]. split.
    + intros Hfit. rewrite to_size_t_small; [reflexivity|].
      pose proof (total_size_nonneg (string_data (scalars data))).
      subst total. lia.
    + intros N'. now rewrite (GetDataSize_string _ _ _ Hvar Hty).
Qed.


(** ** Object representations *)

Lemma Z_of_byte_of_Z z : Z_of_byte (byte_of_Z z) = z mod 256.
Proof.
  unfold Z_of_byte, byte_of_Z.
  assert (Hr : 0 <= z mod 256 < 256) by (apply Z.mod_pos_bound; lia).
  destruct (Byte.of_N (Z.to_N (z mod 256))) as [b|] eqn:Hb; simpl.
  - apply Byte.to_of_N in Hb. rewrite Hb. apply Z2N.id. lia.
  - apply Byte.of_N_None_iff in Hb. lia.
Qed.

Lemma length_le_bytes w z : length (le_bytes w z) = w.
Proof. revert z. induction w as [|w IH]; intros z; simpl; [|rewrite IH]; reflexivity. Qed.

Lemma le_value_le_bytes w z : le_value (le_bytes w z) = z mod 256 ^ Z.of_nat w.
Proof.
  revert z. induction w as [|w IH]; intros z.
  - simpl. now rewrite Z.mod_1_r.
  - cbn [le_bytes le_value]. rewrite IH, Z_of_byte_of_Z.
    rewrite Z.shiftr_div_pow2 by lia.
    rewrite Nat2Z.inj_succ, Z.pow_succ_r by lia.
    change (2 ^ 8) with 256.
    rewrite Z.rem_mul_r by lia. reflexivity.
Qed.

Lemma length_native_bytes e w z : length (native_bytes e w z) = w.
Proof.
  destruct e; simpl; [|rewrite length_rev]; apply length_le_bytes.
Qed.

Lemma native_unsigned_bytes e w z :
  native_unsigned e (native_bytes e w z) = z mod 256 ^ Z.of_nat w.
Proof.
  destruct e; simpl; [|rewrite rev_involutive]; apply le_value_le_bytes.
Qed.

Lemma native_signed_int8 e v :
  native_signed e (native_bytes e 1 (Int.to_int8 v)) = Int.to_int8 v.
Proof.
  unfold native_signed.
  rewrite native_unsigned_bytes, length_native_bytes.
  change (256 ^ Z.of_nat 1) with 256. unfold Int.to_int8.
  change (2 ^ 7) with 128. change (2 ^ 8) with 256.
  destruct (Z.ltb_spec (2 * (((v + 128) mod 256 - 128) mod 256)) 256);
    Z.div_mod_to_equations; lia.
Qed.

Lemma native_signed_int16 e v :
  native_signed e (native_bytes e 2 (Int.to_int16 v)) = Int.to_int16 v.
Proof.
  unfold native_signed.
  rewrite native_unsigned_bytes, length_native_bytes.
  change (256 ^ Z.of_nat 2) with 65536. unfold Int.to_int16.
  change (2 ^ 15) with 32768. change (2 ^ 16) with 65536.
  destruct (Z.ltb_spec (2 * (((v + 32768) mod 65536 - 32768) mod 65536)) 65536);
    Z.div_mod_to_equations; lia.
Qed.

Lemma to_int8_mod v : Int.to_int8 v mod 2 ^ 8 = v mod 2 ^ 8.
Proof.
  unfold Int.to_int8. change (2 ^ 7) with 128. change (2 ^ 8) with 256.
  Z.div_mod_to_equations; lia.
Qed.

Lemma to_int16_mod v : Int.to_int16 v mod 2 ^ 16 = v mod 2 ^ 16.
Proof.
  unfold Int.to_int16. change (2 ^ 15) with 32768. change (2 ^ 16) with 65536.
  Z.div_mod_to_equations; lia.
Qed.

Lemma to_int8_exact v : - 128 <= v <= 127 -> Int.to_int8 v = v.
Proof.
  unfold Int.to_int8. change (2 ^ 7) with 128. change (2 ^ 8) with 256.
  intros Hv. rewrite Z.mod_small by lia. lia.
Qed.

Lemma to_int16_exact v : - 32768 <= v <= 32767 -> Int.to_int16 v = v.
Proof.
  unfold Int.to_int16. change (2 ^ 15) with 32768. change (2 ^ 16) with 65536.
  intros Hv. rewrite Z.mod_small by lia. lia.
Qed.

(** ** Buffers *)

Lemma length_elements_buffer w l :
  length (elements_buffer w l) = (w * length l)%nat.
Proof.
  unfold elements_buffer. induction l as [|x l IH]; simpl; [lia|].
  rewrite length_app, length_native_bytes, IH. lia.
Qed.

Lemma take_elements_buffer w l k :
  take (w * k) (elements_buffer w l) = elements_buffer w (take k l).
Proof.
  unfold elements_buffer. revert k.
  induction l as [|x l IH]; intros k.
  - rewrite (take_nil k). simpl. apply take_nil.
  - destruct k as [|k].
    + now rewrite Nat.mul_0_r.
    + cbn [map concat take].
      replace (w * S k)%nat with (length (native_bytes byte_order w x) + w * k)%nat
        by (rewrite length_native_bytes; lia).
      rewrite take_app_add, IH. reflexivity.
Qed.

Lemma memcpy_prefix dst src n :
  (n <= length src)%nat -> (n <= length dst)%nat ->
  memcpy dst src (Z.of_nat n) = Ret (take n src ++ drop n dst).
Proof.
  intros Hs Hd. unfold memcpy, len.
  destruct (Z.leb_spec (Z.of_nat n) (Z.of_nat (length src))); [|lia].
  destruct (Z.leb_spec (Z.of_nat n) (Z.of_nat (length dst))); [|lia].
  simpl. now rewrite Nat2Z.id.
Qed.

Lemma memcpy_at_hole pre hole rest src :
  length hole = length src ->
  memcpy_at (pre ++ hole ++ rest) (len pre) src = Ret (pre ++ src ++ rest).
Proof.
  intros Hlen. unfold memcpy_at, len.
  rewrite !length_app.
  destruct (Z.leb_spec (Z.of_nat (length pre) + Z.of_nat (length src))
              (Z.of_nat (length pre + (length hole + length rest)))); [|lia].
  rewrite <- Nat2Z.inj_add, !Nat2Z.id.
  rewrite take_app_length. f_equal. f_equal. f_equal.
  rewrite app_assoc, <- Hlen.
  rewrite <- length_app. apply drop_app_length.
Qed.

Lemma length_string_bytes s : Z.of_nat (length (string_bytes s)) = string_size s.
Proof. reflexivity. Qed.

Lemma length_concat_strings l :
  Z.of_nat (length (concat (map string_bytes l))) = total_size l.
Proof.
  induction l as [|s l IH]; simpl; [reflexivity|].
  rewrite length_app, Nat2Z.inj_add, IH. reflexivity.
Qed.

Lemma copy_strings_hole l : forall pre hole rest,
  len hole = total_size l ->
  copy_strings l (len pre) (pre ++ hole ++ rest)
  = Ret (pre ++ concat (map string_bytes l) ++ rest).
Proof.
  induction l as [|s l IH]; intros pre hole rest Hlen.
  - simpl in *. destruct hole; [reflexivity | unfold len in Hlen; simpl in Hlen; lia].
  - cbn [copy_strings map concat total_size foldr] in *.
    pose proof (total_size_nonneg l) as Hnn.
    set (n := length (string_bytes s)).
    assert (Hn : (n <= length hole)%nat).
    { unfold len, string_size in Hlen. fold n in Hlen.
      change (foldr _ 0 l) with (total_size l) in Hlen. lia. }
    rewrite <- (take_drop n hole), <- (app_assoc (take n hole)).
    rewrite memcpy_at_hole by (rewrite length_take; lia).
    replace (len pre + string_size s) with (len (pre ++ string_bytes s))
      by (unfold len, string_size; rewrite length_app; lia).
    rewrite (app_assoc pre (string_bytes s)).
    rewrite IH.
    + now rewrite <- !app_assoc.
    + unfold len in *. rewrite length_drop.
      unfold string_size in Hlen. fold n in Hlen.
      change (foldr _ 0 l) with (total_size l) in Hlen. lia.
Qed.

Lemma FillField_varchar size info dst :
  total_size (string_data (scalars (field_data info))) <= len dst ->
  let l := string_data (scalars (field_data info)) in
  FillField VARCHAR size info dst
  = Ret (concat (map string_bytes l) ++ drop (Z.to_nat (total_size l)) dst).
Proof.
  intros Hfit l. unfold FillField. fold l.
  pose proof (total_size_nonneg l) as Hnn.
  set (n := Z.to_nat (total_size l)).
  rewrite <- (take_drop n dst) at 1.
  apply (copy_strings_hole l [] (take n dst) (drop n dst)).
  unfold len in *. rewrite length_take. subst n l. lia.
Qed.

(** ** Properties of FillField *)

(** C9 (as amended).  String layout.  [FillField] writes the elements
    of a VARCHAR column end to end, in input order, with nothing between
    them: the region holds the concatenation of the elements, followed
    by whatever it held beyond it; a region of exactly the total size
    holds the concatenation and nothing else.  A STRING column it does
    not materialise: the type has no case and is rejected as
    unsupported, with the same batch and region. *)
Theorem FillField_varchar_concatenates (size : Z) (info : LoadFieldDataInfo)
    (dst : list byte) :
  let l := string_data (scalars (field_data info)) in
  total_size l <= len dst ->
  FillField VARCHAR size info dst
  = Ret (concat (map string_bytes l) ++ drop (Z.to_nat (total_size l)) dst)
  /\ (len dst = total_size l ->
      FillField VARCHAR size info dst = Ret (concat (map string_bytes l)))
  /\ FillField STRING size info dst = Panic Unsupported.
Proof.
  intros l Hfit. pose proof (FillField_varchar size info dst Hfit) as Hfill.
  fold l in Hfill. split; [exact Hfill|]. split; [|reflexivity].
  intros Hexact. rewrite Hfill, drop_ge, app_nil_r; [reflexivity|].
  unfold len in Hexact. lia.
Qed.

Lemma FillField_int8 info dst k :
  let l := int_data (scalars (field_data info)) in
  (k <= length l)%nat -> (k <= length dst)%nat ->
  FillField INT8 (Z.of_nat k) info dst
  = Ret (elements_buffer 1 (map Int.to_int8 (take k l)) ++ drop k dst).
Proof.
  intros l Hk Hd. unfold FillField. fold l.
  rewrite memcpy_prefix.
  - replace k with (1 * k)%nat at 1 by lia.
    now rewrite take_elements_buffer, firstn_map.
  - rewrite length_elements_buffer, length_map. lia.
  - exact Hd.
Qed.

Lemma FillField_int16 info dst k :
  let l := int_data (scalars (field_data info)) in
  (k <= length l)%nat -> (2 * k <= length dst)%nat ->
  FillField INT16 (2 * Z.of_nat k) info dst
  = Ret (elements_buffer 2 (map Int.to_int16 (take k l)) ++ drop (2 * k) dst).
Proof.
  intros l Hk Hd. unfold FillField. fold l.
  replace (2 * Z.of_nat k) with (Z.of_nat (2 * k)) by lia.
  rewrite memcpy_prefix.
  - now rewrite take_elements_buffer, firstn_map.
  - rewrite length_elements_buffer, length_map. lia.
  - exact Hd.
Qed.

(** ** Writing to a descriptor *)

Lemma next_write_answer_full w :
  writes_plan (os w) = [] -> next_write_answer w = (None, w).
Proof.
  destruct w as [d n i f m [r1 r2 plan r4 r5 r6 r7] l]; simpl.
  intros ->. reflexivity.
Qed.

Lemma file_content_append ino bs w :
  file_content (append_to_file ino bs w) ino = file_content w ino ++ bs.
Proof.
  unfold file_content at 1. unfold append_to_file. simpl.
  now rewrite lookup_insert_eq.
Qed.

Lemma sys_write_full fd ino buf count w :
  writes_plan (os w) = [] -> fds w !! fd = Some ino -> count <= len buf ->
  sys_write fd buf count w
  = (Ret count,
     record_call (SysWrite fd count count)
       (append_to_file ino (take (Z.to_nat count) buf) w)).
Proof.
  intros Hplan Hfd Hcount. unfold sys_write.
  destruct (Z.ltb_spec (len buf) count); [lia|].
  rewrite next_write_answer_full by assumption. now rewrite Hfd.
Qed.

Lemma fold_ssize_exact l : forall acc,
  0 <= acc -> acc + total_size l <= Int.SSIZE_MAX ->
  fold_left (fun t s => Int.to_ssize_t (t + string_size s)) l acc
  = acc + total_size l.
Proof.
  induction l as [|s l IH]; intros acc Hacc Hfit; simpl in *; [lia|].
  pose proof (string_size_nonneg s). pose proof (total_size_nonneg l).
  change (foldr _ 0 l) with (total_size l) in Hfit.
  rewrite to_ssize_t_small by (unfold Int.SSIZE_MAX in *; lia).
  rewrite IH by lia.
  change (foldr _ 0 l) with (total_size l). lia.
Qed.

Lemma lt_ssize_size_irrefl n : Int.lt_ssize_size n n = false.
Proof. unfold Int.lt_ssize_size. apply Z.ltb_irrefl. Qed.

Lemma write_strings_full fd ino l : forall acc w,
  writes_plan (os w) = [] -> fds w !! fd = Some ino ->
  exists w',
    write_strings fd l acc w
    = (Ret (fold_left (fun t s => Int.to_ssize_t (t + string_size s)) l acc),
       w')
    /\ file_content w' ino
       = file_content w ino ++ concat (map string_bytes l).
Proof.
  induction l as [|s l IH]; intros acc w Hplan Hfd.
  - exists w. simpl. now rewrite app_nil_r.
  - cbn [write_strings fold_left map concat]. unfold mbind, M_bind.
    rewrite (sys_write_full fd ino) by (assumption || (unfold string_size, len; lia)).
    rewrite lt_ssize_size_irrefl.
    match goal with
    | |- context [write_strings fd l ?a ?w1] =>
        destruct (IH a w1) as (w' & Hrun & Hfile); [assumption | assumption |]
    end.
    exists w'. split; [exact Hrun|].
    rewrite Hfile. unfold record_call, file_content at 1. simpl.
    rewrite lookup_insert_eq. simpl.
    rewrite <- app_assoc. f_equal. f_equal.
    apply take_ge. unfold string_size. lia.
Qed.

(** ** The two materialisers share their dispatch *)

Lemma shared_dispatch (data_type : DataType) (info : LoadFieldDataInfo) :
  data_type = VARCHAR
  \/ ((forall size dst, FillField data_type size info dst = Panic Unsupported)
      /\ (forall fd size w,
            WriteFieldData fd data_type (field_data info) size w
            = (Panic Unsupported, w)))
  \/ (data_type <> VARCHAR
      /\ exists buf,
           (forall size dst,
              FillField data_type size info dst = memcpy dst buf size)
           /\ (forall fd size,
                 WriteFieldData fd data_type (field_data info) size
                 = sys_write fd buf size)).
Proof.
  destruct data_type;
    try (left; reflexivity);
    try (right; left; split; reflexivity);
    right; right; (split; [discriminate|]); eexists; split; reflexivity.
Qed.

Lemma memcpy_Ret dst src n dst' :
  0 <= n -> memcpy dst src n = Ret dst' ->
  n <= len src /\ n <= len dst
  /\ dst' = take (Z.to_nat n) src ++ drop (Z.to_nat n) dst.
Proof.
  unfold memcpy. intros Hn.
  destruct (Z.leb_spec n (len src)), (Z.leb_spec n (len dst));
    simpl; intros Heq; inversion Heq; auto.
Qed.

Lemma memcpy_never_panics dst src n e : memcpy dst src n <> Panic e.
Proof. unfold memcpy. destruct (_ && _); discriminate. Qed.

Lemma length_memcpy_at dst off src dst' :
  0 <= off -> memcpy_at dst off src = Ret dst' ->
  off + len src <= len dst /\ len dst' = len dst.
Proof.
  unfold memcpy_at, len. intros Hoff.
  destruct (Z.leb_spec (off + Z.of_nat (length src)) (Z.of_nat (length dst)));
    intros Heq; inversion Heq; subst. split; [assumption|].
  rewrite !length_app, length_take, length_drop. lia.
Qed.

Lemma copy_strings_Ret l : forall off dst dst',
  0 <= off <= len dst -> copy_strings l off dst = Ret dst' ->
  off + total_size l <= len dst.
Proof.
  induction l as [|s l IH]; intros off dst dst' Hoff Hrun; simpl in *.
  - lia.
  - change (foldr _ 0 l) with (total_size l).
    destruct (memcpy_at dst off (string_bytes s)) as [d1| |] eqn:Hcopy;
      try discriminate.
    apply length_memcpy_at in Hcopy as [Hfit Hlen]; [|lia].
    pose proof (string_size_nonneg s).
    apply IH in Hrun; unfold string_size, len in *; lia.
Qed.

Lemma copy_strings_never_panics l : forall off dst e,
  copy_strings l off dst <> Panic e.
Proof.
  induction l as [|s l IH]; intros off dst e; simpl; [discriminate|].
  unfold memcpy_at. destruct (_ <=? _); [apply IH | discriminate].
Qed.

Lemma sys_write_full_content fd ino buf k w :
  writes_plan (os w) = [] -> fds w !! fd = Some ino ->
  (k <= length buf)%nat ->
  exists w',
    sys_write fd buf (Z.of_nat k) w = (Ret (Z.of_nat k), w')
    /\ file_content w' ino = file_content w ino ++ take k buf.
Proof.
  intros Hplan Hfd Hk. eexists. split.
  - apply (sys_write_full fd ino); [assumption | assumption | unfold len; lia].
  - unfold record_call, file_content at 1. simpl.
    now rewrite lookup_insert_eq, Nat2Z.id.
Qed.

(** C8.  Narrowing.  An int8 (int16) column is materialised element by
    element: each 32-bit source element is converted to [int8_t]
    ([int16_t]) and the region, like the file, receives the one-byte
    (two-byte) native representations of the converted elements in order.
    Read back, an element is the source value reduced modulo 2^8 (2^16),
    and any value in the target range, the boundaries included, is read
    back unchanged. *)
Theorem narrowing_is_elementwise (info : LoadFieldDataInfo) (dst : list byte)
    (k : nat) (fd : Z) (ino : nat) (w : World) :
  let l := int_data (scalars (field_data info)) in
  let int8_bytes := fun v => native_bytes byte_order 1 (Int.to_int8 v) in
  let int16_bytes := fun v => native_bytes byte_order 2 (Int.to_int16 v) in
  (k <= length l)%nat ->
  ((k <= length dst)%nat ->
   FillField INT8 (Z.of_nat k) info dst
   = Ret (concat (map int8_bytes (take k l)) ++ drop k dst))
  /\ ((2 * k <= length dst)%nat ->
      FillField INT16 (2 * Z.of_nat k) info dst
      = Ret (concat (map int16_bytes (take k l)) ++ drop (2 * k) dst))
  /\ (writes_plan (os w) = [] -> fds w !! fd = Some ino ->
      (exists w',
         WriteFieldData fd INT8 (field_data info) (Z.of_nat k) w
         = (Ret (Z.of_nat k), w')
         /\ file_content w' ino
            = file_content w ino ++ concat (map int8_bytes (take k l)))
      /\ (exists w',
            WriteFieldData fd INT16 (field_data info) (2 * Z.of_nat k) w
            = (Ret (2 * Z.of_nat k), w')
            /\ file_content w' ino
               = file_content w ino ++ concat (map int16_bytes (take k l))))
  /\ (forall v,
        native_unsigned byte_order (int8_bytes v) = v mod 2 ^ 8
        /\ native_signed byte_order (int8_bytes v) = Int.to_int8 v
        /\ (- 128 <= v <= 127 -> native_signed byte_order (int8_bytes v) = v))
  /\ (forall v,
        native_unsigned byte_order (int16_bytes v) = v mod 2 ^ 16
        /\ native_signed byte_order (int16_bytes v) = Int.to_int16 v
        /\ (- 32768 <= v <= 32767 ->
            native_signed byte_order (int16_bytes v) = v)).
Proof.
  intros l int8_bytes int16_bytes Hk.
  assert (H8 : forall m, concat (map int8_bytes m)
                         = elements_buffer 1 (map Int.to_int8 m)).
  { intros m. unfold elements_buffer. now rewrite map_map. }
  assert (H16 : forall m, concat (map int16_bytes m)
                          = elements_buffer 2 (map Int.to_int16 m)).
  { intros m. unfold elements_buffer. now rewrite map_map. }
  repeat split.
  - intros Hd. rewrite H8. now apply FillField_int8.
  - intros Hd. rewrite H16. now apply FillField_int16.
  - cbn [WriteFieldData]. fold l.
    destruct (sys_write_full_content fd ino
                (elements_buffer 1 (map Int.to_int8 l)) k w)
      as (w' & Hrun & Hfile); try assumption.
    { rewrite length_elements_buffer, length_map. lia. }
    exists w'. split; [exact Hrun|]. rewrite Hfile, H8. f_equal.
    replace k with (1 * k)%nat at 1 by lia.
    now rewrite take_elements_buffer, firstn_map.
  - cbn [WriteFieldData]. fold l.
    destruct (sys_write_full_content fd ino
                (elements_buffer 2 (map Int.to_int16 l)) (2 * k) w)
      as (w' & Hrun & Hfile); try assumption.
    { rewrite length_elements_buffer, length_map. lia. }
    replace (Z.of_nat (2 * k)) with (2 * Z.of_nat k) in Hrun by lia.
    exists w'. split; [exact Hrun|]. rewrite Hfile, H16. f_equal.
    now rewrite take_elements_buffer, firstn_map.
  - unfold int8_bytes. rewrite native_unsigned_bytes. apply to_int8_mod.
  - apply native_signed_int8.
  - intros Hv. unfold int8_bytes.
    rewrite native_signed_int8. now apply to_int8_exact.
  - unfold int16_bytes. rewrite native_unsigned_bytes. apply to_int16_mod.
  - apply native_signed_int16.
  - intros Hv. unfold int16_bytes.
    rewrite native_signed_int16. now apply to_int16_exact.
Qed.

(** ** What WriteFieldData returns *)


Lemma sys_write_keeps fd buf count r w w' :
  sys_write fd buf count w = (r, w') ->
  fds w' = fds w /\ names w' = names w /\ dirs w' = dirs w
  /\ maps w' = maps w
  /\ (r = Undefined /\ w' = w
      \/ writes_plan (os w') = tail (writes_plan (os w))
         /\ exists ret, r = Ret ret
                        /\ log w' = log w ++ [SysWrite fd count ret]).
Proof.
  unfold sys_write, next_write_answer.
  destruct (len buf <? count).
  - intros Hrun; injection Hrun as <- <-. repeat split. now left.
  - cbn [set_os fds].
    destruct (fds w !! fd) as [ino|], (head (writes_plan (os w))) as [[k|]|];
      intros Hrun; injection Hrun as <- <-; repeat split;
      right; (split; [reflexivity | eexists; split; reflexivity]).
Qed.



(** ** CreateMap, anonymous path *)

Lemma fill_mapping_keeps data_type size info map r w w' :
  fill_mapping data_type size info map w = (r, w') ->
  filesystem w' = filesystem w /\ log w' = log w.
Proof.
  unfold fill_mapping. intros Hrun.
  repeat case_match; simplify_eq; auto.
Qed.

Lemma sys_mmap_anon_keeps length r w w' :
  sys_mmap_anon length w = (r, w') ->
  filesystem w' = filesystem w
  /\ exists p, r = Ret p /\ log w' = log w ++ [SysMmapAnon length p].
Proof.
  unfold sys_mmap_anon. intros Hrun.
  case_match; simplify_eq; eauto.
Qed.

(** C10.  Without a mapping directory [CreateMap] leaves the filesystem
    alone: directories, names, file contents and open descriptors are
    after the call what they were before it, and the only call it can
    have made to the kernel is the anonymous [mmap]. *)
Theorem CreateMap_anonymous_frame (segment_id : Z) (field_meta : FieldMeta)
    (info : LoadFieldDataInfo) (w w' : World) (r : outcome ptr) :
  mmap_dir_path info = None ->
  CreateMap segment_id field_meta info w = (r, w') ->
  filesystem w' = filesystem w
  /\ exists calls,
       log w' = log w ++ calls
       /\ Forall (fun c => is_filesystem_call c = false) calls.
Proof.
  intros Hnone. unfold CreateMap. rewrite Hnone.
  unfold mbind, M_bind, lift, mret, M_ret.
  destruct (GetDataSize _ _ _) as [data_size| |];
    try (intros [= <- <-]; split; [reflexivity|];
         exists []; now rewrite app_nil_r).
  destruct (data_size =? 0);
    try (intros [= <- <-]; split; [reflexivity|];
         exists []; now rewrite app_nil_r).
  destruct (sys_mmap_anon data_size w) as [r1 w1] eqn:Hmap.
  apply sys_mmap_anon_keeps in Hmap as (Hfs & p & -> & Hlog).
  assert (Hdone : filesystem w1 = filesystem w
                  /\ exists calls,
                       log w1 = log w ++ calls
                       /\ Forall (fun c => is_filesystem_call c = false) calls).
  { split; [assumption|]. eexists. split; [exact Hlog|].
    repeat constructor. }
  unfold AssertInfo, lift, mret, M_ret.
  destruct (negb (ptr_eqb p MapFailed)); [|intros [= <- <-]; exact Hdone].
  destruct (fill_mapping _ _ _ _ w1) as [r2 w2] eqn:Hfill.
  apply fill_mapping_keeps in Hfill as [Hfs2 Hlog2].
  rewrite <- Hfs2, <- Hlog2 in Hdone.
  destruct r2; intros [= <- <-]; exact Hdone.
Qed.

(** ** CreateMap, file-backed path *)

Lemma eq_ssize_size_in_range written size :
  - 2 ^ 63 <= written <= Int.SSIZE_MAX -> 0 <= size <= Int.SSIZE_MAX ->
  Int.eq_ssize_size written size = true <-> written = size.
Proof.
  unfold Int.eq_ssize_size, Int.to_size_t, Int.SSIZE_MAX.
  intros Hw Hs. rewrite Z.eqb_eq. rewrite (Z.mod_small size) by lia.
  split; [|intros ->; apply Z.mod_small; lia].
  destruct (Z.lt_ge_cases written 0) as [Hneg | Hpos].
  - replace written with (written + 2 ^ 64 - 1 * 2 ^ 64) by lia.
    rewrite Zminus_mod, Z_mod_mult, Z.sub_0_r, Zmod_mod.
    rewrite Z.mod_small by lia. lia.
  - rewrite Z.mod_small by lia. auto.
Qed.

Lemma sys_fsync_returns fd w :
  exists ret,
    sys_fsync fd w = (Ret ret, record_call (SysFsync fd ret) w)
    /\ (ret = 0 \/ ret = -1).
Proof. unfold sys_fsync. destruct (_ && _); eauto. Qed.

Lemma sys_mmap_file_returns fd length w :
  exists p w',
    sys_mmap_file fd length w = (Ret p, w')
    /\ p <> Null
    /\ filesystem w' = filesystem w
    /\ log w' = log w ++ [SysMmapFile fd length p].
Proof.
  unfold sys_mmap_file.
  destruct (fds w !! fd) as [ino|]; [destruct (_ && _)|];
    do 2 eexists; (split; [reflexivity|]); repeat split; discriminate.
Qed.

Lemma sys_unlink_returns file w :
  exists ret w',
    sys_unlink file w = (Ret ret, w')
    /\ log w' = log w ++ [SysUnlink file ret]
    /\ fds w' = fds w.
Proof.
  unfold sys_unlink. destruct (_ && _); do 2 eexists; repeat split.
Qed.

Lemma sys_close_returns fd w :
  exists ret w',
    sys_close fd w = (Ret ret, w')
    /\ log w' = log w ++ [SysClose fd ret]
    /\ names w' = names w.
Proof.
  unfold sys_close. destruct (_ && _); do 2 eexists; repeat split.
Qed.

(** The tail of the file-backed path, outcome by outcome. *)
Lemma after_write_cases filepath fd written w r w' :
  after_write filepath fd written w = (r, w') ->
  (r = Panic (FsyncFailed filepath)
   /\ w' = record_call (SysFsync fd (-1)) w)
  \/ (r = Ret Null /\ written = 0 /\ w' = record_call (SysFsync fd 0) w)
  \/ (written <> 0
      /\ (r = Panic (FileMapFailed filepath)
          \/ r = Panic (UnlinkFailed filepath)
          \/ r = Panic (CloseFailed filepath)
          \/ exists a, r = Ret (Addr a))
      /\ exists p calls,
           log w' = log w ++ SysFsync fd 0
                             :: SysMmapFile fd (Int.to_size_t written) p
                             :: calls
           /\ Forall (fun c => exists ret,
                          c = SysUnlink filepath ret \/ c = SysClose fd ret)
                calls).
Proof.
  unfold after_write. unfold mbind at 1. unfold M_bind at 1.
  destruct (sys_fsync_returns fd w) as (ok & -> & Hok).
  unfold mbind at 1. unfold M_bind at 1.
  destruct Hok as [-> | ->]; cbn [Z.eqb AssertInfo lift];
    [|intros [= <- <-]; auto].
  unfold mret at 1. unfold M_ret at 1.
  destruct (Z.eqb_spec written 0) as [-> | Hne].
  { intros [= <- <-]. right. left. auto. }
  set (w0 := record_call (SysFsync fd 0) w).
  unfold mbind at 1. unfold M_bind at 1.
  destruct (sys_mmap_file_returns fd (Int.to_size_t written) w0)
    as (p & w1 & -> & Hp & _ & Hlog1).
  assert (Hlog1' : log w1 = log w ++ SysFsync fd 0
                     :: [SysMmapFile fd (Int.to_size_t written) p]).
  { rewrite Hlog1. unfold w0, record_call. simpl.
    now rewrite <- app_assoc. }
  intros Hrun. right. right. split; [assumption|].
  revert Hrun.
  unfold mbind at 1. unfold M_bind at 1.
  destruct p as [| |a]; [contradiction | |]; cbn [ptr_eqb negb AssertInfo lift].
  { intros [= <- <-]. split; [auto|]. exists MapFailed, []. auto. }
  unfold mret at 1. unfold M_ret at 1.
  unfold mbind at 1. unfold M_bind at 1.
  destruct (sys_unlink_returns filepath w1) as (ok1 & w2 & -> & Hlog2 & _).
  unfold mbind at 1. unfold M_bind at 1.
  destruct (Z.eqb_spec ok1 0) as [-> | Hu]; cbn [AssertInfo lift].
  2:{ intros [= <- <-]. split; [auto|].
      exists (Addr a), [SysUnlink filepath ok1]. split.
      - rewrite Hlog2, Hlog1', <- app_assoc. reflexivity.
      - repeat constructor. eauto. }
  unfold mret at 1. unfold M_ret at 1.
  unfold mbind at 1. unfold M_bind at 1.
  destruct (sys_close_returns fd w2) as (ok2 & w3 & -> & Hlog3 & _).
  unfold mbind at 1. unfold M_bind at 1.
  assert (Hcalls : log w3 = log w ++ SysFsync fd 0
            :: SysMmapFile fd (Int.to_size_t written) (Addr a)
            :: [SysUnlink filepath 0; SysClose fd ok2]).
  { rewrite Hlog3, Hlog2, Hlog1', <- !app_assoc. reflexivity. }
  assert (Hall : Forall (fun c => exists ret,
                     c = SysUnlink filepath ret \/ c = SysClose fd ret)
                   [SysUnlink filepath 0; SysClose fd ok2]).
  { repeat constructor; eauto. }
  destruct (Z.eqb_spec ok2 0) as [-> | Hc]; cbn [AssertInfo lift].
  - unfold mret, M_ret. intros [= <- <-]. split; [eauto 6|].
    exists (Addr a). eauto.
  - intros [= <- <-]. split; [auto|]. exists (Addr a). eauto.
Qed.

Lemma after_write_failures filepath fd written w e w' :
  after_write filepath fd written w = (Panic e, w') ->
  e = FsyncFailed filepath \/ e = FileMapFailed filepath
  \/ e = UnlinkFailed filepath \/ e = CloseFailed filepath.
Proof.
  intros Hrun. apply after_write_cases in Hrun
    as [[He _] | [[He _] | (_ & [He | [He | [He | [a He]]]] & _)]];
    inversion He; auto.
Qed.

Lemma create_directories_cases dir w r w1 :
  create_directories dir w = (r, w1) ->
  log w1 = log w ++ [SysCreateDirectories dir]
  /\ names w1 = names w /\ fds w1 = fds w
  /\ (r = Ret tt \/ r = Panic (CreateDirectoriesFailed dir)).
Proof.
  unfold create_directories. cbn [record_call os names log].
  destruct (_ && _); intros [= <- <-]; auto.
Qed.

Lemma sys_open_cases file w r w' :
  sys_open file w = (r, w') ->
  exists fd,
    r = Ret fd
    /\ log w' = log w ++ [SysOpen file fd]
    /\ (fd <> -1 ->
        exists ino, names w' !! file = Some ino /\ fds w' !! fd = Some ino).
Proof.
  unfold sys_open. destruct (_ && _ && _); intros [= <- <-].
  - eexists. repeat split. intros _. eexists. simpl.
    now rewrite !lookup_insert_eq.
  - exists (-1). repeat split. intros Hne. now contradiction Hne.
Qed.

Lemma write_strings_keeps fd l : forall acc r w w',
  write_strings fd l acc w = (r, w') ->
  names w' = names w /\ fds w' = fds w
  /\ (forall e, r <> Panic e)
  /\ exists calls, log w' = log w ++ calls /\ Forall (is_write_of fd) calls.
Proof.
  induction l as [|s l IH]; intros acc r w w'.
  - intros [= <- <-]. repeat split; [discriminate|].
    exists []. now rewrite app_nil_r.
  - cbn [write_strings]. unfold mbind, M_bind.
    destruct (sys_write fd (string_bytes s) (string_size s) w)
      as [r1 w1] eqn:Hwrite.
    apply sys_write_keeps in Hwrite
      as (Hfds & Hnames & _ & _ & [[-> ->] | [_ (ret & -> & Hlog)]]).
    + intros [= <- <-]. repeat split; [discriminate|].
      exists []. now rewrite app_nil_r.
    + destruct (Int.lt_ssize_size ret (string_size s)).
      * intros [= <- <-]. repeat split; try assumption; [discriminate|].
        eexists. split; [exact Hlog|]. repeat constructor.
        unfold is_write_of. eauto.
      * intros Hrun. apply IH in Hrun
          as (Hn & Hf & Hp & calls & Hlog' & Hcalls).
        repeat split; try congruence.
        eexists. split.
        -- rewrite Hlog', Hlog, <- app_assoc. reflexivity.
        -- constructor; [unfold is_write_of; eauto | assumption].
Qed.

Lemma WriteFieldData_keeps fd data_type data size r w w' :
  WriteFieldData fd data_type data size w = (r, w') ->
  names w' = names w /\ fds w' = fds w
  /\ (forall e, r = Panic e -> e = Unsupported)
  /\ exists calls,
       log w' = log w ++ calls
       /\ Forall (is_write_of fd) calls
       /\ (data_type <> VARCHAR ->
           forall fd' count ret, In (SysWrite fd' count ret) calls ->
                                 count = size).
Proof.
  intros Hrun.
  destruct (shared_dispatch data_type (mkLoadFieldDataInfo 0 0 None data))
    as [-> | [[_ Hw] | (_ & buf & _ & Hw)]]; try (simpl in Hw).
  - apply write_strings_keeps in Hrun as (Hn & Hf & Hp & calls & Hlog & Hc).
    repeat split; try assumption.
    + intros e ->. now contradiction (Hp e).
    + exists calls. repeat split; try assumption. congruence.
  - rewrite Hw in Hrun. injection Hrun as <- <-.
    repeat split; [congruence|]. exists [].
    rewrite app_nil_r. repeat split; [constructor | intros _ ? ? ? []].
  - rewrite Hw in Hrun. apply sys_write_keeps in Hrun
      as (Hf & Hn & _ & _ & [[-> ->] | [_ (ret & -> & Hlog)]]).
    + repeat split; [discriminate|]. exists [].
      rewrite app_nil_r. repeat split; [constructor | intros _ ? ? ? []].
    + repeat split; try assumption; [discriminate|].
      eexists. split; [exact Hlog|]. split.
      * repeat constructor. unfold is_write_of. eauto.
      * intros _ fd' count ret' [[= <- <- <-] | []]. reflexivity.
Qed.

Lemma CreateMap_file_unfold segment_id field_meta info mmap_dir w :
  mmap_dir_path info = Some mmap_dir ->
  let filepath :=
    mmap_dir ++ [to_string segment_id; to_string (field_id info)] in
  let size := Int.to_size_t (get_sizeof field_meta * row_count info) in
  CreateMap segment_id field_meta info w
  = match create_directories (take (length filepath - 1) filepath) w with
    | (Ret _, w1) =>
        match sys_open filepath w1 with
        | (Ret fd, w2) =>
            if fd =? -1 then (Panic (CreateFileFailed filepath), w2)
            else
              match WriteFieldData fd (get_data_type field_meta)
                      (field_data info) size w2 with
              | (Ret written, w3) =>
                  if Int.eq_ssize_size written size
                     || negb (written =? -1)
                        && datatype_is_variable (get_data_type field_meta)
                  then after_write filepath fd written w3
                  else (Panic (WriteFailed filepath written size), w3)
              | (Panic e, w3) => (Panic e, w3)
              | (Undefined, w3) => (Undefined, w3)
              end
        | (Panic e, w2) => (Panic e, w2)
        | (Undefined, w2) => (Undefined, w2)
        end
    | (Panic e, w1) => (Panic e, w1)
    | (Undefined, w1) => (Undefined, w1)
    end.
Proof.
  intros Hdir filepath size.
  unfold CreateMap. rewrite Hdir. fold filepath. fold size.
  unfold mbind at 1. unfold M_bind at 1.
  destruct (create_directories _ w) as [[[]| |] w1]; try reflexivity.
  unfold mbind at 1. unfold M_bind at 1.
  destruct (sys_open filepath w1) as [[fd| |] w2]; try reflexivity.
  unfold mbind at 1. unfold M_bind at 1.
  destruct (fd =? -1); cbn [negb AssertInfo lift]; [reflexivity|].
  unfold mret at 1. unfold M_ret at 1.
  unfold mbind at 1. unfold M_bind at 1.
  destruct (WriteFieldData _ _ _ _ w2) as [[written| |] w3]; try reflexivity.
  unfold mbind at 1. unfold M_bind at 1.
  destruct (_ || _); reflexivity.
Qed.

Lemma CreateMap_file_steps segment_id field_meta info mmap_dir w w1 fd w2 :
  mmap_dir_path info = Some mmap_dir ->
  let filepath :=
    mmap_dir ++ [to_string segment_id; to_string (field_id info)] in
  let size := Int.to_size_t (get_sizeof field_meta * row_count info) in
  create_directories (take (length filepath - 1) filepath) w = (Ret tt, w1) ->
  sys_open filepath w1 = (Ret fd, w2) ->
  fd <> -1 ->
  CreateMap segment_id field_meta info w
  = match WriteFieldData fd (get_data_type field_meta) (field_data info)
            size w2 with
    | (Ret written, w3) =>
        if Int.eq_ssize_size written size
           || negb (written =? -1)
              && datatype_is_variable (get_data_type field_meta)
        then after_write filepath fd written w3
        else (Panic (WriteFailed filepath written size), w3)
    | (Panic e, w3) => (Panic e, w3)
    | (Undefined, w3) => (Undefined, w3)
    end.
Proof.
  intros Hdir filepath size Hmk Hopen Hfd.
  rewrite (CreateMap_file_unfold _ _ _ _ _ Hdir).
  fold filepath. fold size. rewrite Hmk, Hopen.
  destruct (Z.eqb_spec fd (-1)) as [|_]; [contradiction | reflexivity].
Qed.

(** C4.  After the write, the file-backed path raises its write failure
    exactly when [written == size] is false and it is not the case that
    [written != -1] and the type is variable-width; so for a fixed-width
    type every result other than the expected size is fatal.  The
    comparison is the one the code makes, on [size_t]; it is equality of
    the two numbers whenever the expected size fits [ssize_t]. *)
Theorem CreateMap_write_assertion (segment_id : Z) (field_meta : FieldMeta)
    (info : LoadFieldDataInfo) (mmap_dir : Path) (w w1 w2 w3 : World)
    (fd written : Z) :
  mmap_dir_path info = Some mmap_dir ->
  let filepath :=
    mmap_dir ++ [to_string segment_id; to_string (field_id info)] in
  let size := Int.to_size_t (get_sizeof field_meta * row_count info) in
  let variable := datatype_is_variable (get_data_type field_meta) in
  create_directories (take (length filepath - 1) filepath) w = (Ret tt, w1) ->
  sys_open filepath w1 = (Ret fd, w2) ->
  fd <> -1 ->
  WriteFieldData fd (get_data_type field_meta) (field_data info) size w2
  = (Ret written, w3) ->
  ((exists w',
      CreateMap segment_id field_meta info w
      = (Panic (WriteFailed filepath written size), w'))
   <-> Int.eq_ssize_size written size = false
       /\ ~ (written <> -1 /\ variable = true))
  /\ (variable = false -> Int.eq_ssize_size written size = false ->
      CreateMap segment_id field_meta info w
      = (Panic (WriteFailed filepath written size), w3))
  /\ (- 2 ^ 63 <= written <= Int.SSIZE_MAX -> size <= Int.SSIZE_MAX ->
      (Int.eq_ssize_size written size = true <-> written = size)).
Proof.
  intros Hdir filepath size variable Hmk Hopen Hfd Hwrite.
  pose proof (CreateMap_file_steps segment_id field_meta info mmap_dir
                w w1 fd w2 Hdir Hmk Hopen Hfd) as Hsteps.
  cbv zeta in Hsteps. fold filepath size variable in Hsteps.
  rewrite Hwrite in Hsteps. rewrite Hsteps. clear Hsteps.
  assert (Hlater : forall w',
            after_write filepath fd written w3
            <> (Panic (WriteFailed filepath written size), w')).
  { intros w' Hrun. apply after_write_failures in Hrun.
    destruct Hrun as [H | [H | [H | H]]]; discriminate H. }
  split; [split|split].
  - intros [w' Hrun].
    destruct (Int.eq_ssize_size written size); simpl in Hrun;
      [now apply Hlater in Hrun|].
    split; [reflexivity|]. intros [Hne Hvar].
    destruct (Z.eqb_spec written (-1)) as [|_]; [contradiction|].
    rewrite Hvar in Hrun. simpl in Hrun. now apply Hlater in Hrun.
  - intros [Heq Hnot]. rewrite Heq. simpl.
    destruct (Z.eqb_spec written (-1)) as [|Hne]; simpl; [eauto|].
    destruct variable; [exfalso; apply Hnot; auto | eauto].
  - intros Hfixed Heq. rewrite Heq, Hfixed. simpl.
    now rewrite andb_false_r.
  - intros Hw Hs. apply eq_ssize_size_in_range; [assumption|].
    split; [|assumption]. unfold size, Int.to_size_t.
    apply Z.mod_pos_bound. lia.
Qed.


Lemma extends_refl P w : extends P w w.
Proof. exists []. now rewrite app_nil_r. Qed.

Lemma extends_trans P w1 w2 w3 :
  extends P w1 w2 -> extends P w2 w3 -> extends P w1 w3.
Proof.
  intros (c1 & H1 & F1) (c2 & H2 & F2). exists (c1 ++ c2). split.
  - now rewrite H2, H1, app_assoc.
  - now apply Forall_app.
Qed.

Lemma extends_one P w w' c :
  log w' = log w ++ [c] -> P c -> extends P w w'.
Proof. intros Hlog Hc. exists [c]. auto. Qed.

Lemma after_write_extends size filepath fd written w r w' :
  after_write filepath fd written w = (r, w') ->
  extends (asks_for size) w w'.
Proof.
  intros Hrun. apply after_write_cases in Hrun
    as [[_ ->] | [(_ & _ & ->) | (_ & _ & p & calls & Hlog & Hcalls)]].
  - eapply extends_one; [reflexivity | intros ? ? ? [=]].
  - eapply extends_one; [reflexivity | intros ? ? ? [=]].
  - eexists. split; [exact Hlog|].
    constructor; [intros ? ? ? [=]|].
    constructor; [intros ? ? ? [=]|].
    eapply Forall_impl; [exact Hcalls|].
    intros c [ret [-> | ->]] ? ? ? [=].
Qed.

(** C5.  On the file-backed path the expected size is
    [get_sizeof() * row_count] for every field, variable-width ones
    included: it is the total a write failure reports, and, for every type
    but VARCHAR (whose elements are written one by one), the count each
    [write] of the call asks for. *)
Theorem CreateMap_file_expected_size (segment_id : Z) (field_meta : FieldMeta)
    (info : LoadFieldDataInfo) (mmap_dir : Path) (w w' : World)
    (r : outcome ptr) :
  mmap_dir_path info = Some mmap_dir ->
  CreateMap segment_id field_meta info w = (r, w') ->
  let size := Int.to_size_t (get_sizeof field_meta * row_count info) in
  (forall file written total,
     r = Panic (WriteFailed file written total) -> total = size)
  /\ (get_data_type field_meta <> VARCHAR ->
      exists calls,
        log w' = log w ++ calls
        /\ forall fd count ret,
             In (SysWrite fd count ret) calls -> count = size).
Proof.
  intros Hdir Hrun size.
  rewrite (CreateMap_file_unfold _ _ _ _ _ Hdir) in Hrun.
  cbv zeta in Hrun. fold size in Hrun.
  set (filepath := mmap_dir ++ [to_string segment_id; to_string (field_id info)])
    in Hrun.
  assert (Hgoal :
    (forall file written total,
       r = Panic (WriteFailed file written total) -> total = size)
    /\ (get_data_type field_meta <> VARCHAR -> extends (asks_for size) w w')).
  { destruct (create_directories _ w) as [r1 w1] eqn:Hmk.
    apply create_directories_cases in Hmk as (Hlog1 & _ & _ & Hr1).
    assert (H1 : extends (asks_for size) w w1)
      by (eapply extends_one; [exact Hlog1 | intros ? ? ? [=]]).
    destruct Hr1 as [-> | ->]; [|injection Hrun as <- <-; split; [intros ? ? ? [=] | auto]].
    destruct (sys_open filepath w1) as [r2 w2] eqn:Hopen.
    apply sys_open_cases in Hopen as (fd & -> & Hlog2 & _).
    assert (H2 : extends (asks_for size) w w2).
    { eapply extends_trans; [exact H1|].
      eapply extends_one; [exact Hlog2 | intros ? ? ? [=]]. }
    destruct (fd =? -1);
      [injection Hrun as <- <-; split; [intros ? ? ? [=] | auto]|].
    destruct (WriteFieldData _ _ _ _ w2) as [r3 w3] eqn:Hwrite.
    apply WriteFieldData_keeps in Hwrite
      as (_ & _ & Hpanic & calls & Hlog3 & _ & Hcount).
    assert (H3 : get_data_type field_meta <> VARCHAR ->
                 extends (asks_for size) w w3).
    { intros Hty. eapply extends_trans; [exact H2|].
      exists calls. split; [exact Hlog3|].
      apply Forall_forall. intros c Hc fd' count ret ->.
      apply list_elem_of_In in Hc. exact (Hcount Hty _ _ _ Hc). }
    destruct r3 as [written|e|].
    - destruct (_ || _).
      + split.
        * intros file wr total ->. apply after_write_failures in Hrun.
          destruct Hrun as [H | [H | [H | H]]]; discriminate H.
        * intros Hty. eapply extends_trans; [exact (H3 Hty)|].
          eapply after_write_extends. exact Hrun.
      + injection Hrun as <- <-. split; [|exact H3].
        now intros file wr total [= _ _ <-].
    - injection Hrun as <- <-. split; [|exact H3].
      intros file wr total [= He]. specialize (Hpanic e eq_refl).
      congruence.
    - injection Hrun as <- <-. split; [intros ? ? ? [=] | exact H3]. }
  split; [exact (proj1 Hgoal)|].
  intros Hty. destruct (proj2 Hgoal Hty) as (calls & Hlog & Hall).
  exists calls. split; [exact Hlog|].
  intros fd count ret Hin.
  rewrite Forall_forall in Hall. apply list_elem_of_In in Hin.
  exact (Hall _ Hin fd count ret eq_refl).
Qed.

(** C3 (what the code does).  On the file-backed path, whenever
    [CreateMap] returns null it has written nothing, and it returns right
    after the [fsync]: the file it created is still named in its
    directory and the descriptor is still open; there has been no
    [unlink] and no [close]. *)
Theorem CreateMap_null_leaves_file (segment_id : Z) (field_meta : FieldMeta)
    (info : LoadFieldDataInfo) (mmap_dir : Path) (w w' : World) :
  mmap_dir_path info = Some mmap_dir ->
  CreateMap segment_id field_meta info w = (Ret Null, w') ->
  let filepath :=
    mmap_dir ++ [to_string segment_id; to_string (field_id info)] in
  exists fd ino writes,
    names w' !! filepath = Some ino
    /\ fds w' !! fd = Some ino
    /\ Forall (is_write_of fd) writes
    /\ log w' = log w
                ++ SysCreateDirectories (take (length filepath - 1) filepath)
                :: SysOpen filepath fd :: writes ++ [SysFsync fd 0].
Proof.
  intros Hdir Hrun filepath.
  rewrite (CreateMap_file_unfold _ _ _ _ _ Hdir) in Hrun.
  cbv zeta in Hrun. fold filepath in Hrun.
  destruct (create_directories _ w) as [r1 w1] eqn:Hmk.
  apply create_directories_cases in Hmk as (Hlog1 & _ & _ & [-> | ->]);
    [|discriminate Hrun].
  destruct (sys_open filepath w1) as [r2 w2] eqn:Hopen.
  apply sys_open_cases in Hopen as (fd & -> & Hlog2 & Hopened).
  destruct (Z.eqb_spec fd (-1)) as [|Hfd]; [discriminate Hrun|].
  destruct (Hopened Hfd) as (ino & Hname & Hdesc).
  destruct (WriteFieldData _ _ _ _ w2) as [r3 w3] eqn:Hwrite.
  apply WriteFieldData_keeps in Hwrite
    as (Hnames & Hfds & _ & writes & Hlog3 & Hwrites & _).
  destruct r3 as [written|e|]; try discriminate Hrun.
  destruct (_ || _); [|discriminate Hrun].
  apply after_write_cases in Hrun
    as [[Hr _] | [(_ & _ & ->) | (_ & [Hr | [Hr | [Hr | [a Hr]]]] & _)]];
    try discriminate Hr.
  exists fd, ino, writes. cbn [record_call names fds log].
  rewrite Hnames, Hfds. repeat split; try assumption.
  rewrite Hlog3, Hlog2, Hlog1, <- !app_assoc. reflexivity.
Qed.

(** ** The two paths on the same request *)

Lemma sys_write_full_state fd ino buf count w :
  writes_plan (os w) = [] -> fds w !! fd = Some ino -> count <= len buf ->
  exists w',
    sys_write fd buf count w = (Ret count, w')
    /\ file_content w' ino = file_content w ino ++ take (Z.to_nat count) buf
    /\ names w' = names w /\ fds w' = fds w /\ maps w' = maps w
    /\ os w' = os w.
Proof.
  intros Hplan Hfd Hcount. eexists. split.
  - now apply (sys_write_full fd ino).
  - unfold record_call, file_content at 1. simpl.
    rewrite lookup_insert_eq. repeat split.
Qed.

Lemma write_strings_full_state fd ino l : forall acc w,
  writes_plan (os w) = [] -> fds w !! fd = Some ino ->
  exists w',
    write_strings fd l acc w
    = (Ret (fold_left (fun t s => Int.to_ssize_t (t + string_size s)) l acc),
       w')
    /\ file_content w' ino
       = file_content w ino ++ concat (map string_bytes l)
    /\ names w' = names w /\ fds w' = fds w /\ maps w' = maps w
    /\ os w' = os w.
Proof.
  induction l as [|s l IH]; intros acc w Hplan Hfd.
  - exists w. simpl. rewrite app_nil_r. repeat split.
  - cbn [write_strings fold_left map concat]. unfold mbind, M_bind.
    destruct (sys_write_full_state fd ino (string_bytes s) (string_size s) w)
      as (w1 & -> & Hfile1 & Hn1 & Hf1 & Hm1 & Ho1);
      [assumption | assumption | unfold string_size, len; lia |].
    rewrite lt_ssize_size_irrefl.
    destruct (IH (Int.to_ssize_t (acc + string_size s)) w1)
      as (w' & Hrun & Hfile & Hn & Hf & Hm & Ho);
      [now rewrite Ho1 | now rewrite Hf1 |].
    exists w'. split; [exact Hrun|].
    rewrite Hfile, Hfile1, <- app_assoc.
    rewrite take_ge by (unfold string_size; lia).
    repeat split; congruence.
Qed.

Lemma create_directories_ok dir w :
  mkdir_ok (os w) = true ->
  (forall p, p ∈ ancestors dir -> names w !! p = None) ->
  create_directories dir w
  = (Ret tt,
     mkWorld (dirs w ∪ list_to_set (ancestors dir)) (names w) (inodes w)
             (fds w) (maps w) (os w)
             (log w ++ [SysCreateDirectories dir])).
Proof.
  intros Hok Hfree. unfold create_directories.
  cbn [record_call os names dirs inodes fds maps log].
  rewrite Hok.
  replace (forallb _ (ancestors dir)) with true; [reflexivity|].
  symmetry. apply forallb_forall. intros p Hp.
  apply bool_decide_eq_true. apply Hfree. now apply list_elem_of_In.
Qed.

Lemma parent_is_ancestor (dir : Path) :
  dir <> [] -> dir ∈ ancestors dir.
Proof.
  intros Hne. unfold ancestors. apply list_elem_of_fmap.
  exists (length dir). split; [now rewrite take_ge|].
  apply list_elem_of_In, in_seq. destruct dir; [contradiction|simpl; lia].
Qed.

Lemma ancestors_shorter (dir p : Path) :
  p ∈ ancestors dir -> (length p <= length dir)%nat.
Proof.
  unfold ancestors. intros Hp. apply list_elem_of_fmap in Hp as (n & -> & _).
  rewrite length_take. lia.
Qed.

Lemma sys_open_ok file w :
  open_ok (os w) = true ->
  file ∉ dirs w ->
  take (length file - 1) file ∈ dirs w ->
  let fd := fresh_fd (fds w) in
  let ino := default (fresh_nat (inodes w)) (names w !! file) in
  sys_open file w
  = (Ret fd,
     mkWorld (dirs w) (<[file := ino]> (names w)) (<[ino := []]> (inodes w))
             (<[fd := ino]> (fds w)) (maps w) (os w)
             (log w ++ [SysOpen file fd])).
Proof.
  intros Hok Hfile Hparent fd ino. unfold sys_open. rewrite Hok.
  rewrite (bool_decide_eq_true_2 _ Hfile), (bool_decide_eq_true_2 _ Hparent).
  reflexivity.
Qed.

Lemma after_write_ok filepath fd written ino ino' w :
  fsync_ok (os w) = true -> mmap_ok (os w) = true ->
  unlink_ok (os w) = true -> close_ok (os w) = true ->
  fds w !! fd = Some ino -> names w !! filepath = Some ino' ->
  0 < written <= Int.SIZE_MAX ->
  exists a w',
    after_write filepath fd written w = (Ret (Addr a), w')
    /\ maps w' !! a
       = Some (mkMapping (take (Z.to_nat written) (file_content w ino))
                 false (Some ino))
    /\ names w' !! filepath = None.
Proof.
  intros Hfsync Hmmap Hunlink Hclose Hfd Hname Hwritten.
  unfold after_write, mbind, M_bind, sys_fsync.
  rewrite Hfsync. rewrite bool_decide_eq_true_2 by (rewrite Hfd; eauto).
  cbn [andb Z.eqb AssertInfo mret M_ret].
  destruct (Z.eqb_spec written 0) as [|_]; [lia|].
  rewrite to_size_t_small by lia.
  unfold sys_mmap_file. cbn [record_call set_maps os fds names maps dirs inodes log].
  rewrite Hfd, Hmmap.
  destruct (Z.ltb_spec 0 written) as [_|]; [|lia].
  cbn [andb ptr_eqb negb AssertInfo mret M_ret].
  unfold sys_unlink. cbn [record_call set_maps os fds names maps dirs inodes log].
  rewrite Hunlink. rewrite bool_decide_eq_true_2 by (rewrite Hname; eauto).
  cbn [andb Z.eqb AssertInfo mret M_ret].
  unfold sys_close. cbn [record_call set_maps os fds names maps dirs inodes log].
  rewrite Hclose. rewrite bool_decide_eq_true_2 by (rewrite Hfd; eauto).
  cbn [andb Z.eqb AssertInfo mret M_ret].
  do 2 eexists. split; [reflexivity|].
  cbn [record_call set_maps os fds names maps dirs inodes log]. split.
  - now rewrite lookup_insert_eq.
  - apply lookup_delete_eq.
Qed.

Lemma WriteFieldData_full_exact data_type size info dst dst' fd ino w :
  writes_plan (os w) = [] ->
  fds w !! fd = Some ino ->
  0 <= size ->
  len dst <= Int.SSIZE_MAX ->
  FillField data_type size info dst = Ret dst' ->
  exists n w',
    WriteFieldData fd data_type (field_data info) size w = (Ret n, w')
    /\ n = match data_type with
           | VARCHAR => total_size (string_data (scalars (field_data info)))
           | _ => size
           end
    /\ 0 <= n <= len dst
    /\ file_content w' ino = file_content w ino ++ take (Z.to_nat n) dst'
    /\ drop (Z.to_nat n) dst' = drop (Z.to_nat n) dst
    /\ names w' = names w /\ fds w' = fds w /\ maps w' = maps w
    /\ os w' = os w.
Proof.
  intros Hplan Hfd Hsize Hdst Hfill.
  destruct (shared_dispatch data_type info) as [-> | [[Hf Hw] | (Hnv & buf & Hf & Hw)]].
  - set (l := string_data (scalars (field_data info))).
    assert (Hfit : total_size l <= len dst).
    { unfold FillField in Hfill. fold l in Hfill.
      apply copy_strings_Ret in Hfill; unfold len in *; lia. }
    pose proof (total_size_nonneg l) as Hnn.
    rewrite (FillField_varchar size info dst Hfit) in Hfill.
    fold l in Hfill. injection Hfill as <-.
    destruct (write_strings_full_state fd ino l 0 w Hplan Hfd)
      as (w' & Hrun & Hfile & Hstate).
    rewrite fold_ssize_exact in Hrun by lia. rewrite Z.add_0_l in Hrun.
    assert (Hlen : Z.to_nat (total_size l)
                   = length (concat (map string_bytes l))).
    { rewrite <- length_concat_strings. now rewrite Nat2Z.id. }
    exists (total_size l), w'.
    split; [exact Hrun|]. split; [reflexivity|]. split; [lia|].
    split; [|split; [now apply drop_app_length' | exact Hstate]].
    rewrite Hfile. f_equal. symmetry. now apply take_app_length'.
  - rewrite Hf in Hfill. discriminate Hfill.
  - rewrite Hf in Hfill.
    apply memcpy_Ret in Hfill as (Hs & Hd & ->); [|assumption].
    destruct (sys_write_full_state fd ino buf size w Hplan Hfd Hs)
      as (w' & Hrun & Hfile & Hstate).
    exists size, w'. rewrite Hw.
    split; [exact Hrun|]. split.
    { destruct data_type; try reflexivity. now contradiction Hnv. }
    split; [lia|].
    split; [|split; [|exact Hstate]].
    + rewrite Hfile. f_equal. symmetry.
      apply take_app_length'. rewrite length_take. unfold len in Hs. lia.
    + apply drop_app_length'. rewrite length_take. unfold len in Hs. lia.
Qed.

Lemma GetDataSize_cases field N data ds :
  GetDataSize field N data = Ret ds ->
  (datatype_is_variable (get_data_type field) = false
   /\ ds = Int.to_size_t (get_sizeof field * N))
  \/ (datatype_is_variable (get_data_type field) = true
      /\ (get_data_type field = VARCHAR \/ get_data_type field = STRING)
      /\ ds = Int.to_size_t (total_size (string_data (scalars data)))).
Proof.
  unfold GetDataSize. rewrite <- sum_string_sizes_total.
  destruct (datatype_is_variable (get_data_type field)).
  - destruct (get_data_type field); intros [= <-]; auto.
  - intros [= <-]. auto.
Qed.

Lemma to_size_t_mul_r a b :
  Int.to_size_t (a * Int.to_size_t b) = Int.to_size_t (a * b).
Proof. unfold Int.to_size_t. apply Zmult_mod_idemp_r. Qed.

(** C2.  The two sinks receive the same bytes, and so do the two
    mappings.  When every [write] call writes its buffer fully, the bytes
    [WriteFieldData] appends to the file are the bytes [FillField] places
    at the start of the region for the same type, size and batch (and
    [FillField] touches nothing beyond them); a type [FillField] rejects,
    [WriteFieldData] rejects with the same failure.  Hence, in a
    cooperative environment, a request that [CreateMap] serves from
    anonymous memory is served from a file with a mapping of the same
    bytes: the bytes [FillField] writes over zeroed memory of the
    computed size. *)
Theorem WriteFieldData_matches_FillField :
  (forall (data_type : DataType) (size : Z) (info : LoadFieldDataInfo)
          (dst : list byte) (fd : Z) (ino : nat) (w : World),
     writes_plan (os w) = [] ->
     fds w !! fd = Some ino ->
     0 <= size ->
     len dst <= Int.SSIZE_MAX ->
     (forall dst',
        FillField data_type size info dst = Ret dst' ->
        exists n w',
          WriteFieldData fd data_type (field_data info) size w = (Ret n, w')
          /\ 0 <= n <= len dst
          /\ file_content w' ino
             = file_content w ino ++ take (Z.to_nat n) dst'
          /\ drop (Z.to_nat n) dst' = drop (Z.to_nat n) dst)
     /\ (forall e,
           FillField data_type size info dst = Panic e ->
           WriteFieldData fd data_type (field_data info) size w
           = (Panic e, w)))
  /\
  (forall (segment_id : Z) (field_meta : FieldMeta) (fid rc : Z)
          (data : DataArray) (mmap_dir : Path) (wa wa' wf : World)
          (a : nat),
     let anon := mkLoadFieldDataInfo fid rc None data in
     let filed := mkLoadFieldDataInfo fid rc (Some mmap_dir) data in
     let filepath := mmap_dir ++ [to_string segment_id; to_string fid] in
     (get_data_type field_meta = VARCHAR ->
      datatype_is_variable VARCHAR = true) ->
     (forall ds, GetDataSize field_meta (Int.to_size_t rc) data = Ret ds ->
                 ds <= Int.SSIZE_MAX) ->
     CreateMap segment_id field_meta anon wa = (Ret (Addr a), wa') ->
     os wf = cooperative ->
     filepath ∉ dirs wf ->
     (forall p, p ∈ ancestors (take (length filepath - 1) filepath) ->
                names wf !! p = None) ->
     exists a' wf' ds bytes,
       GetDataSize field_meta (Int.to_size_t rc) data = Ret ds
       /\ FillField (get_data_type field_meta) ds anon
            (replicate (Z.to_nat ds) x00)
          = Ret bytes
       /\ CreateMap segment_id field_meta filed wf = (Ret (Addr a'), wf')
       /\ map_bytes <$> maps wa' !! a = Some bytes
       /\ map_bytes <$> maps wf' !! a' = Some bytes
       /\ names wf' !! filepath = None).
Proof.
  split.
  { intros data_type size info dst fd ino w Hplan Hfd Hsize Hdst.
    destruct (shared_dispatch data_type info) as [-> | [[Hf Hw] | (_ & buf & Hf & Hw)]].
    - set (l := string_data (scalars (field_data info))). split.
      + intros dst' Hfill.
        assert (Hfit : total_size l <= len dst).
        { unfold FillField in Hfill. fold l in Hfill.
          apply copy_strings_Ret in Hfill; unfold len in *; lia. }
        pose proof (total_size_nonneg l) as Hnn.
        rewrite (FillField_varchar size info dst Hfit) in Hfill.
        fold l in Hfill. injection Hfill as <-.
        destruct (write_strings_full fd ino l 0 w Hplan Hfd) as (w' & Hrun & Hfile).
        rewrite fold_ssize_exact in Hrun by lia. rewrite Z.add_0_l in Hrun.
        assert (Hlen : Z.to_nat (total_size l)
                       = length (concat (map string_bytes l))).
        { rewrite <- length_concat_strings. now rewrite Nat2Z.id. }
        exists (total_size l), w'. repeat split; try assumption.
        * rewrite Hfile. f_equal. symmetry. now apply take_app_length'.
        * now apply drop_app_length'.
      + intros e Hfill. exfalso. unfold FillField in Hfill.
        exact (copy_strings_never_panics _ _ _ _ Hfill).
    - split.
      + intros dst' Hfill. rewrite Hf in Hfill. discriminate Hfill.
      + intros e He. rewrite Hf in He. injection He as <-. apply Hw.
    - split.
      + intros dst' Hfill. rewrite Hf in Hfill.
        apply memcpy_Ret in Hfill as (Hs & Hd & ->); [|assumption].
        assert (Hk : (Z.to_nat size <= length buf)%nat) by (unfold len in Hs; lia).
        destruct (sys_write_full_content fd ino buf _ w Hplan Hfd Hk)
          as (w' & Hrun & Hfile).
        rewrite Z2Nat.id in Hrun by assumption.
        exists size, w'. rewrite Hw. repeat split; try assumption.
        * rewrite Hfile. f_equal. symmetry.
          apply take_app_length'. rewrite length_take. lia.
        * apply drop_app_length'. rewrite length_take. lia.
      + intros e He. rewrite Hf in He. exfalso.
        exact (memcpy_never_panics _ _ _ _ He). }
  { intros segment_id field_meta fid rc data mmap_dir wa wa' wf a
      anon filed filepath Hvar Hsmall Hanon Hos Hnotdir Hfree.
    (* the anonymous run *)
    unfold CreateMap in Hanon. cbn [mmap_dir_path anon] in Hanon.
    unfold mbind, M_bind, lift, mret, M_ret in Hanon.
    destruct (GetDataSize _ _ _) as [ds| |] eqn:Hsize; try discriminate Hanon.
    destruct (Z.eqb_spec ds 0) as [|Hnz]; [discriminate Hanon|].
    unfold sys_mmap_anon in Hanon.
    destruct (mmap_ok (os wa) && (0 <? ds)) eqn:Hmm;
      cbn [ptr_eqb negb AssertInfo lift mret M_ret] in Hanon;
      [|discriminate Hanon].
    apply andb_true_iff in Hmm as [_ Hpos]. apply Z.ltb_lt in Hpos.
    unfold fill_mapping in Hanon.
    cbn [record_call set_maps os fds names maps dirs inodes log] in Hanon.
    rewrite lookup_insert_eq in Hanon.
    cbn [map_bytes map_writable map_backing] in Hanon.
    destruct (FillField _ ds _ _) as [bytes| |] eqn:Hfill;
      try discriminate Hanon.
    injection Hanon as <- <-.
    pose proof (Hsmall ds eq_refl) as Hds. clear Hsmall.
    set (dst := replicate (Z.to_nat ds) x00) in *.
    assert (Hlen : len dst = ds)
      by (unfold len, dst; rewrite length_replicate; lia).
    set (size := Int.to_size_t (get_sizeof field_meta * rc)).
    assert (Hfill' : FillField (get_data_type field_meta) size filed dst
                     = Ret bytes
                     /\ match get_data_type field_meta with
                        | VARCHAR =>
                            total_size (string_data (scalars data)) = ds
                            /\ datatype_is_variable (get_data_type field_meta)
                               = true
                        | _ => size = ds
                        end).
    { destruct (shared_dispatch (get_data_type field_meta) anon)
        as [Hty | [[Hf _] | (Hnv & buf & Hf & _)]].
      - rewrite Hty in *. split; [exact Hfill|].
        apply GetDataSize_cases in Hsize
          as [[Hfix _] | (Hv & _ & ->)];
          [rewrite Hty, (Hvar eq_refl) in Hfix; discriminate Hfix|].
        split; [|exact (Hvar eq_refl)].
        unfold FillField in Hfill. cbn [field_data anon] in Hfill.
        apply copy_strings_Ret in Hfill; [|unfold len; lia].
        pose proof (total_size_nonneg (string_data (scalars data))).
        rewrite Hlen in Hfill. symmetry. apply to_size_t_small.
        unfold Int.SIZE_MAX, Int.SSIZE_MAX in *. lia.
      - rewrite Hf in Hfill. discriminate Hfill.
      - assert (Heq : size = ds).
        { apply GetDataSize_cases in Hsize
            as [[_ ->] | (_ & [Hty | Hty] & _)].
          + unfold size. now rewrite to_size_t_mul_r.
          + contradiction.
          + rewrite Hty in Hfill. discriminate Hfill. }
        rewrite Heq. split; [exact Hfill|].
        destruct (get_data_type field_meta); try reflexivity.
        now contradiction Hnv. }
    destruct Hfill' as [Hfilled Hcount].
    (* the file-backed run *)
    set (parent := take (length filepath - 1) filepath) in *.
    assert (Hlong : (length filepath = S (S (length mmap_dir)))%nat)
      by (unfold filepath; rewrite length_app; simpl; lia).
    assert (Hparent : (length parent = S (length mmap_dir))%nat)
      by (unfold parent; rewrite length_take; lia).
    pose proof (create_directories_ok parent wf) as Hmk.
    rewrite Hos in Hmk. specialize (Hmk eq_refl Hfree).
    set (w1 := mkWorld (dirs wf ∪ list_to_set (ancestors parent)) (names wf)
                 (inodes wf) (fds wf) (maps wf) cooperative
                 (log wf ++ [SysCreateDirectories parent])) in Hmk.
    pose proof (sys_open_ok filepath w1 eq_refl) as Hopen.
    cbv zeta in Hopen. fold parent in Hopen.
    cbn [w1 dirs names inodes fds maps os log] in Hopen.
    assert (Hfresh : filepath ∉ dirs wf ∪ list_to_set (ancestors parent)).
    { apply not_elem_of_union. split; [assumption|].
      rewrite elem_of_list_to_set. intros Hin.
      apply ancestors_shorter in Hin. lia. }
    assert (Hthere : parent ∈ dirs wf ∪ list_to_set (ancestors parent)).
    { apply elem_of_union_r. rewrite elem_of_list_to_set.
      apply parent_is_ancestor. intros Hnil. rewrite Hnil in Hparent.
      discriminate Hparent. }
    specialize (Hopen Hfresh Hthere).
    set (fd := fresh_fd (fds wf)) in Hopen.
    set (ino := default (fresh_nat (inodes wf)) (names wf !! filepath)) in Hopen.
    set (w2 := mkWorld _ _ _ _ _ _ _) in Hopen.
    assert (Hfd : fd <> -1) by (unfold fd, fresh_fd; lia).
    pose proof (CreateMap_file_steps segment_id field_meta filed mmap_dir
                  wf w1 fd w2 eq_refl Hmk Hopen Hfd) as Hsteps.
    cbv zeta in Hsteps. cbn [field_id row_count field_data filed] in Hsteps.
    fold filepath in Hsteps. fold size in Hsteps.
    destruct (WriteFieldData_full_exact (get_data_type field_meta) size filed
                dst bytes fd ino w2)
      as (n & w3 & Hwrite & Hn & Hrange & Hfile & Hrest & Hnames & Hfds
          & Hmaps & Hos3);
      [reflexivity | apply lookup_insert_eq
      | unfold size, Int.to_size_t; apply Z.mod_pos_bound; lia
      | lia | exact Hfilled |].
    cbn [field_data filed] in Hwrite. rewrite Hwrite in Hsteps.
    assert (Hnds : n = ds).
    { rewrite Hn. destruct (get_data_type field_meta); try exact Hcount.
      exact (proj1 Hcount). }
    assert (Hpass : Int.eq_ssize_size n size
                    || negb (n =? -1)
                       && datatype_is_variable (get_data_type field_meta)
                    = true).
    { destruct (get_data_type field_meta) eqn:Hty;
        try (rewrite Hnds, <- Hcount; unfold Int.eq_ssize_size;
             now rewrite Z.eqb_refl).
      destruct Hcount as [_ ->]. apply orb_true_iff. right.
      destruct (Z.eqb_spec n (-1)); [lia | reflexivity]. }
    rewrite Hpass in Hsteps.
    destruct (after_write_ok filepath fd n ino ino w3)
      as (a' & wf' & Hafter & Hmap & Hgone);
      try (rewrite Hos3; reflexivity).
    { rewrite Hfds. apply lookup_insert_eq. }
    { rewrite Hnames. apply lookup_insert_eq. }
    { unfold Int.SIZE_MAX, Int.SSIZE_MAX in *. lia. }
    rewrite Hafter in Hsteps.
    exists a', wf', ds, bytes. split; [reflexivity|].
    split; [first [exact Hfill | reflexivity]|]. split; [exact Hsteps|].
    split; [cbn [set_maps maps]; now rewrite lookup_insert_eq|].
    split; [|exact Hgone].
    rewrite Hmap. cbn [fmap option_fmap option_map map_bytes]. f_equal.
    rewrite Hfile. unfold file_content at 1.
    cbn [w2 inodes]. rewrite lookup_insert_eq. cbn [default app].
    change (id [] ++ ?x) with x.
    rewrite take_take, Nat.min_id.
    rewrite <- (take_drop (Z.to_nat n) bytes) at 2.
    rewrite Hrest, (drop_ge dst), app_nil_r; [reflexivity|].
    unfold len in Hlen. lia. }
Qed.

(** ** More on the materialisers *)

Lemma length_memcpy dst src n dst' :
  memcpy dst src n = Ret dst' -> length dst' = length dst.
Proof.
  unfold memcpy, len.
  destruct (Z.leb_spec n (Z.of_nat (length src))),
           (Z.leb_spec n (Z.of_nat (length dst)));
    simpl; intros [= <-].
  rewrite length_app, length_take, length_drop. lia.
Qed.

Lemma length_copy_strings l : forall off dst dst',
  0 <= off -> copy_strings l off dst = Ret dst' -> length dst' = length dst.
Proof.
  induction l as [|s l IH]; intros off dst dst' Hoff; simpl.
  - now intros [= <-].
  - destruct (memcpy_at dst off (string_bytes s)) as [d1| |] eqn:Hcopy;
      try discriminate.
    apply length_memcpy_at in Hcopy as [_ Hlen]; [|assumption].
    intros Hrun. apply IH in Hrun; [|pose proof (string_size_nonneg s); lia].
    unfold len in Hlen. lia.
Qed.

Lemma FillField_length (data_type : DataType) (size : Z)
    (info : LoadFieldDataInfo) (dst dst' : list byte) :
  FillField data_type size info dst = Ret dst' ->
  length dst' = length dst.
Proof.
  intros Hfill.
  destruct (shared_dispatch data_type info)
    as [-> | [[Hf _] | (_ & buf & Hf & _)]].
  - unfold FillField in Hfill. now apply length_copy_strings in Hfill.
  - rewrite Hf in Hfill. discriminate Hfill.
  - rewrite Hf in Hfill. now apply length_memcpy in Hfill.
Qed.

Lemma sys_write_never_panics fd buf count w e w' :
  sys_write fd buf count w <> (Panic e, w').
Proof.
  intros Hrun. apply sys_write_keeps in Hrun
    as (_ & _ & _ & _ & [[H _] | [_ (ret & H & _)]]); discriminate H.
Qed.

Lemma materialised_dispatch (data_type : DataType) (info : LoadFieldDataInfo) :
  (materialised data_type = true /\ data_type = VARCHAR)
  \/ (materialised data_type = false
      /\ (forall size dst, FillField data_type size info dst = Panic Unsupported)
      /\ (forall fd size w,
            WriteFieldData fd data_type (field_data info) size w
            = (Panic Unsupported, w)))
  \/ (materialised data_type = true
      /\ exists buf,
           (forall size dst,
              FillField data_type size info dst = memcpy dst buf size)
           /\ (forall fd size,
                 WriteFieldData fd data_type (field_data info) size
                 = sys_write fd buf size)).
Proof.
  destruct data_type;
    try (left; split; reflexivity);
    try (right; left; repeat split; reflexivity);
    right; right; (split; [reflexivity|]); eexists; split; reflexivity.
Qed.

(** X11.  The materialisers reject exactly the types they have no case
    for: [FillField] and [WriteFieldData] raise "unsupported" for STRING
    and for every type outside the ten listed ones, and for no other
    type. *)
Theorem unsupported_exactly_when_not_materialised (data_type : DataType)
    (size : Z) (info : LoadFieldDataInfo) (dst : list byte) (fd : Z)
    (w : World) :
  ((exists e, FillField data_type size info dst = Panic e)
   <-> materialised data_type = false)
  /\ ((exists e w',
         WriteFieldData fd data_type (field_data info) size w = (Panic e, w'))
      <-> materialised data_type = false)
  /\ (materialised data_type = false ->
      FillField data_type size info dst = Panic Unsupported
      /\ WriteFieldData fd data_type (field_data info) size w
         = (Panic Unsupported, w)).
Proof.
  destruct (materialised_dispatch data_type info)
    as [[Hm ->] | [(Hm & Hf & Hw) | (Hm & buf & Hf & Hw)]];
    rewrite Hm.
  - split; [|split; [|discriminate]]; (split; [|discriminate]).
    + intros [e He]. exfalso. exact (copy_strings_never_panics _ _ _ _ He).
    + intros (e & w' & He). exfalso.
      apply write_strings_keeps in He as (_ & _ & Hp & _).
      exact (Hp e eq_refl).
  - rewrite Hf, Hw. repeat split; eauto.
  - rewrite Hf, Hw. split; [|split; [|discriminate]]; (split; [|discriminate]).
    + intros [e He]. exfalso. exact (memcpy_never_panics _ _ _ _ He).
    + intros (e & w' & He). exfalso.
      exact (sys_write_never_panics _ _ _ _ _ _ He).
Qed.

Lemma stride_elements_buffer w l : forall i v,
  l !! i = Some v ->
  take w (drop (w * i) (elements_buffer w l)) = native_bytes byte_order w v.
Proof.
  unfold elements_buffer.
  induction l as [|x l IH]; intros i v Hv; [discriminate Hv|].
  destruct i as [|i]; cbn [map concat].
  - injection Hv as ->. rewrite Nat.mul_0_r, drop_0.
    apply take_app_length'. now rewrite length_native_bytes.
  - replace (w * S i)%nat
      with (length (native_bytes byte_order w x) + w * i)%nat
      by (rewrite length_native_bytes; lia).
    rewrite drop_app_add. now apply IH.
Qed.

Lemma raw_elements_copied t info w l :
  raw_elements t (field_data info) = Some (w, l) ->
  forall size dst,
    FillField t size info dst = memcpy dst (elements_buffer w l) size.
Proof.
  destruct t; try discriminate; intros [= <- <-]; reflexivity.
Qed.

Lemma native_signed_exact_4 e v :
  - 2 ^ 31 <= v < 2 ^ 31 -> native_signed e (native_bytes e 4 v) = v.
Proof.
  intros Hv. unfold native_signed.
  rewrite native_unsigned_bytes, length_native_bytes.
  change (256 ^ Z.of_nat 4) with 4294967296.
  change (2 ^ 31) with 2147483648 in Hv.
  destruct (Z.ltb_spec (2 * (v mod 4294967296)) 4294967296);
    Z.div_mod_to_equations; lia.
Qed.

Lemma native_signed_exact_8 e v :
  - 2 ^ 63 <= v < 2 ^ 63 -> native_signed e (native_bytes e 8 v) = v.
Proof.
  intros Hv. unfold native_signed.
  rewrite native_unsigned_bytes, length_native_bytes.
  change (256 ^ Z.of_nat 8) with 18446744073709551616.
  change (2 ^ 63) with 9223372036854775808 in Hv.
  destruct (Z.ltb_spec (2 * (v mod 18446744073709551616)) 18446744073709551616);
    Z.div_mod_to_equations; lia.
Qed.

(** X12.  Columns copied without conversion read back.  For INT32,
    INT64, FLOAT, DOUBLE and the float vector, after [FillField] with the
    size of [k] elements the [i]-th stride of the region is the native
    representation of the [i]-th source element: its bit pattern is read
    back exactly, and an int32 or int64 value in range is read back as
    itself.  Nothing beyond the [k] elements is touched. *)
Theorem raw_columns_read_back (data_type : DataType)
    (info : LoadFieldDataInfo) (dst : list byte) (w k : nat) (l : list Z) :
  raw_elements data_type (field_data info) = Some (w, l) ->
  (k <= length l)%nat ->
  (w * k <= length dst)%nat ->
  exists dst',
    FillField data_type (Z.of_nat (w * k)) info dst = Ret dst'
    /\ drop (w * k) dst' = drop (w * k) dst
    /\ forall i v,
         (i < k)%nat -> l !! i = Some v ->
         let element := take w (drop (w * i) dst') in
         element = native_bytes byte_order w v
         /\ native_unsigned byte_order element = v mod 256 ^ Z.of_nat w
         /\ (data_type = INT32 -> - 2 ^ 31 <= v < 2 ^ 31 ->
             native_signed byte_order element = v)
         /\ (data_type = INT64 -> - 2 ^ 63 <= v < 2 ^ 63 ->
             native_signed byte_order element = v).
Proof.
  intros Hraw Hk Hdst.
  rewrite (raw_elements_copied _ _ _ _ Hraw).
  assert (Hsrc : (w * k <= length (elements_buffer w l))%nat)
    by (rewrite length_elements_buffer; apply Nat.mul_le_mono_l; exact Hk).
  rewrite (memcpy_prefix _ _ _ Hsrc Hdst).
  rewrite take_elements_buffer.
  assert (Hlen : length (elements_buffer w (take k l)) = (w * k)%nat)
    by (rewrite length_elements_buffer, length_take, Nat.min_l by lia;
        reflexivity).
  eexists. split; [reflexivity|].
  split; [now apply drop_app_length'|].
  intros i v Hi Hv element.
  assert (Helement : element = native_bytes byte_order w v).
  { unfold element.
    assert (Hin : (w * i + w <= w * k)%nat) by nia.
    rewrite drop_app_le by lia.
    rewrite take_app_le by (rewrite length_drop; lia).
    apply stride_elements_buffer. rewrite lookup_take_lt by assumption.
    exact Hv. }
  rewrite Helement. split; [reflexivity|].
  split; [apply native_unsigned_bytes|].
  split; intros Hty Hv'; subst data_type; injection Hraw as <- <-.
  - now apply native_signed_exact_4.
  - now apply native_signed_exact_8.
Qed.

(** ** What CreateMap touches *)







Lemma fresh_nat_unused {V} (m : gmap nat V) : m !! fresh_nat m = None.
Proof. apply not_elem_of_dom. unfold fresh_nat. apply is_fresh. Qed.













(** The tail of the file-backed path when it returns. *)
Lemma after_write_returns filepath fd written w p w' :
  after_write filepath fd written w = (Ret p, w') ->
  (p = Null /\ written = 0 /\ w' = record_call (SysFsync fd 0) w)
  \/ (exists a ino,
        p = Addr a /\ written <> 0
        /\ a = fresh_nat (maps w)
        /\ fds w !! fd = Some ino
        /\ maps w'
           = <[a := mkMapping
                      (take (Z.to_nat (Int.to_size_t written))
                         (file_content w ino))
                      false (Some ino)]> (maps w)
        /\ names w' = delete filepath (names w)
        /\ fds w' = delete fd (fds w)
        /\ dirs w' = dirs w /\ inodes w' = inodes w
        /\ log w'
           = log w ++ [SysFsync fd 0;
                       SysMmapFile fd (Int.to_size_t written) (Addr a);
                       SysUnlink filepath 0; SysClose fd 0]).
Proof.
  unfold after_write, mbind, M_bind, sys_fsync.
  destruct (fsync_ok (os w) && _);
    cbn [Z.eqb AssertInfo lift mret M_ret]; [|discriminate].
  destruct (Z.eqb_spec written 0) as [-> | Hne].
  { intros [= <- <-]. left. auto. }
  unfold sys_mmap_file.
  cbn [record_call set_maps os fds names maps dirs inodes log].
  destruct (fds w !! fd) as [ino|] eqn:Hfd;
    [destruct (mmap_ok (os w) && _)|];
    cbn [ptr_eqb negb AssertInfo lift mret M_ret]; try discriminate.
  unfold sys_unlink.
  cbn [record_call set_maps os fds names maps dirs inodes log].
  destruct (unlink_ok (os w) && _);
    cbn [Z.eqb AssertInfo lift mret M_ret]; [|discriminate].
  unfold sys_close.
  cbn [record_call set_maps os fds names maps dirs inodes log].
  rewrite Hfd.
  destruct (close_ok (os w) && _);
    cbn [Z.eqb AssertInfo lift mret M_ret]; [|discriminate].
  intros [= <- <-]. right. exists (fresh_nat (maps w)), ino.
  cbn [record_call set_maps os fds names maps dirs inodes log].
  rewrite <- !app_assoc. repeat split; auto.
Qed.

Lemma WriteFieldData_same_maps fd data_type data size r w w' :
  WriteFieldData fd data_type data size w = (r, w') ->
  maps w' = maps w /\ dirs w' = dirs w.
Proof.
  assert (Hs : forall l acc r w w',
             write_strings fd l acc w = (r, w') ->
             maps w' = maps w /\ dirs w' = dirs w).
  { induction l as [|s l IH]; intros acc r0 w0 w0'; cbn [write_strings].
    - now intros [= <- <-].
    - unfold mbind, M_bind.
      destruct (sys_write fd (string_bytes s) (string_size s) w0)
        as [r1 w1] eqn:Hwrite.
      apply sys_write_keeps in Hwrite as (_ & _ & Hd & Hm & _).
      destruct r1 as [n| |]; try (intros [= <- <-]; auto).
      destruct (Int.lt_ssize_size _ _); [intros [= <- <-]; auto|].
      intros Hrun. apply IH in Hrun as [-> ->]. auto. }
  destruct data_type; cbn [WriteFieldData];
    try (intros Hrun; apply sys_write_keeps in Hrun
           as (_ & _ & Hd & Hm & _); auto);
    try apply Hs; intros [= <- <-]; auto.
Qed.

(** X15.  A file-backed [CreateMap] that returns a mapping has cleaned
    up: the file's name is gone and the descriptor is closed, while the
    parent directory stays.  The address is a new one; the mapping is
    read-only, backed by the file, and holds the first [written] bytes of
    the file; the calls were create_directories, open, the writes, fsync,
    mmap, unlink and close, in this order. *)
Theorem CreateMap_file_success (segment_id : Z) (field_meta : FieldMeta)
    (info : LoadFieldDataInfo) (mmap_dir : Path) (w w' : World) (a : nat) :
  mmap_dir_path info = Some mmap_dir ->
  CreateMap segment_id field_meta info w = (Ret (Addr a), w') ->
  let filepath :=
    mmap_dir ++ [to_string segment_id; to_string (field_id info)] in
  names w' !! filepath = None
  /\ take (length filepath - 1) filepath ∈ dirs w'
  /\ maps w !! a = None
  /\ exists fd ino written writes,
       fds w' !! fd = None
       /\ written <> 0
       /\ maps w' !! a
          = Some (mkMapping
                    (take (Z.to_nat (Int.to_size_t written))
                       (file_content w' ino))
                    false (Some ino))
       /\ Forall (is_write_of fd) writes
       /\ log w'
          = log w
            ++ SysCreateDirectories (take (length filepath - 1) filepath)
            :: SysOpen filepath fd
            :: writes
            ++ [SysFsync fd 0;
                SysMmapFile fd (Int.to_size_t written) (Addr a);
                SysUnlink filepath 0; SysClose fd 0].
Proof.
  intros Hdir Hrun filepath.
  rewrite (CreateMap_file_unfold _ _ _ _ _ Hdir) in Hrun.
  cbv zeta in Hrun. fold filepath in Hrun.
  set (parent := take (length filepath - 1) filepath) in *.
  destruct (create_directories parent w) as [r1 w1] eqn:Hmk.
  assert (Hmaps1 : maps w1 = maps w /\ (r1 = Ret tt -> parent ∈ dirs w1)).
  { revert Hmk. unfold create_directories.
    cbn [record_call os names dirs inodes fds maps log].
    destruct (_ && _); intros [= <- <-]; (split; [reflexivity|]);
      [|discriminate].
    intros _. cbn [dirs].
    assert (Hne : parent <> []).
    { intros Hnil. apply (f_equal length) in Hnil.
      unfold parent in Hnil. rewrite length_take in Hnil.
      unfold filepath in Hnil. rewrite length_app in Hnil.
      simpl in Hnil. lia. }
    apply elem_of_union_r, elem_of_list_to_set, parent_is_ancestor, Hne. }
  destruct Hmaps1 as [Hmaps1 Hparent].
  apply create_directories_cases in Hmk as (Hlog1 & _ & _ & [-> | ->]);
    [|discriminate Hrun].
  specialize (Hparent eq_refl).
  destruct (sys_open filepath w1) as [r2 w2] eqn:Hopen.
  assert (Hmaps2 : maps w2 = maps w1 /\ dirs w2 = dirs w1).
  { revert Hopen. unfold sys_open.
    destruct (_ && _ && _); intros [= <- <-]; auto. }
  destruct Hmaps2 as [Hmaps2 Hdirs2].
  apply sys_open_cases in Hopen as (fd & -> & Hlog2 & _).
  destruct (Z.eqb_spec fd (-1)) as [|Hfd]; [discriminate Hrun|].
  destruct (WriteFieldData _ _ _ _ w2) as [r3 w3] eqn:Hwrite.
  pose proof (WriteFieldData_same_maps _ _ _ _ _ _ _ Hwrite)
    as [Hmaps3 Hdirs3].
  apply WriteFieldData_keeps in Hwrite
    as (_ & _ & _ & writes & Hlog3 & Hwrites & _).
  destruct r3 as [written|e|]; try discriminate Hrun.
  destruct (_ || _); [|discriminate Hrun].
  apply after_write_returns in Hrun
    as [(Hp & _) | (a0 & ino & [= <-] & Hne & -> & Hdesc & Hmap & Hnames
                    & Hfds & Hdirs & Hinodes & Hlog)];
    [discriminate Hp|].
  split; [rewrite Hnames; apply lookup_delete_eq|].
  split; [rewrite Hdirs, Hdirs3, Hdirs2; exact Hparent|].
  split; [rewrite Hmaps3, Hmaps2, Hmaps1; apply fresh_nat_unused|].
  exists fd, ino, written, writes.
  split; [rewrite Hfds; apply lookup_delete_eq|].
  split; [exact Hne|].
  split; [rewrite Hmap, lookup_insert_eq; unfold file_content;
          now rewrite Hinodes|].
  split; [exact Hwrites|].
  rewrite Hlog, Hlog3, Hlog2, Hlog1, <- !app_assoc. reflexivity.
Qed.

(** X14.  The anonymous path.  A size of zero gives null and nothing
    else happens.  Otherwise a returned pointer is the address of a new,
    writable, anonymous mapping of exactly the computed size, holding what
    [FillField] wrote over zeroed memory; the only call was the [mmap]. *)
Theorem CreateMap_anonymous_result (segment_id : Z) (field_meta : FieldMeta)
    (info : LoadFieldDataInfo) (w : World) :
  mmap_dir_path info = None ->
  let size_of :=
    GetDataSize field_meta (Int.to_size_t (row_count info))
      (field_data info) in
  (size_of = Ret 0 ->
   CreateMap segment_id field_meta info w = (Ret Null, w))
  /\ forall p w',
       CreateMap segment_id field_meta info w = (Ret p, w') ->
       (p = Null /\ size_of = Ret 0 /\ w' = w)
       \/ (exists a data_size bytes,
             p = Addr a
             /\ size_of = Ret data_size /\ 0 < data_size
             /\ a = fresh_nat (maps w)
             /\ FillField (get_data_type field_meta) data_size info
                  (replicate (Z.to_nat data_size) x00)
                = Ret bytes
             /\ len bytes = data_size
             /\ maps w' = <[a := mkMapping bytes true None]> (maps w)
             /\ log w' = log w ++ [SysMmapAnon data_size (Addr a)]).
Proof.
  intros Hnone size_of. unfold CreateMap. rewrite Hnone.
  fold size_of. unfold mbind, M_bind, lift, mret, M_ret.
  split; [intros ->; reflexivity|].
  intros p w'.
  destruct size_of as [ds| |]; try discriminate.
  destruct (Z.eqb_spec ds 0) as [-> | Hnz];
    [intros [= <- <-]; left; auto|].
  unfold sys_mmap_anon.
  destruct (mmap_ok (os w) && (0 <? ds)) eqn:Hmm;
    cbn [ptr_eqb negb AssertInfo lift mret M_ret]; [|discriminate].
  apply andb_true_iff in Hmm as [_ Hpos]. apply Z.ltb_lt in Hpos.
  unfold fill_mapping.
  cbn [record_call set_maps os fds names maps dirs inodes log].
  rewrite lookup_insert_eq.
  cbn [map_bytes map_writable map_backing].
  destruct (FillField _ ds _ _) as [bytes| |] eqn:Hfill; try discriminate.
  intros [= <- <-]. right.
  exists (fresh_nat (maps w)), ds, bytes.
  cbn [record_call set_maps os fds names maps dirs inodes log].
  rewrite insert_insert_eq. repeat split; auto.
  apply FillField_length in Hfill.
  unfold len. rewrite Hfill, length_replicate. lia.
Qed.

Lemma fold_ssize_from l : forall acc,
  - 2 ^ 63 <= acc -> acc + total_size l <= Int.SSIZE_MAX ->
  fold_left (fun t s => Int.to_ssize_t (t + string_size s)) l acc
  = acc + total_size l.
Proof.
  induction l as [|s l IH]; intros acc Hacc Hfit; simpl in *; [lia|].
  pose proof (string_size_nonneg s). pose proof (total_size_nonneg l).
  change (foldr _ 0 l) with (total_size l) in Hfit.
  rewrite to_ssize_t_small by (unfold Int.SSIZE_MAX in *; lia).
  rewrite IH by lia.
  change (foldr _ 0 l) with (total_size l). lia.
Qed.

(** X13.  A failed [write] does not stop the VARCHAR loop.  When the
    write of the first element returns -1 and the later ones succeed in
    full, [WriteFieldData] goes on to write every later element and
    returns their total size minus one. *)
Theorem WriteFieldData_continues_after_error (fd : Z) (ino : nat)
    (data : DataArray) (size : Z) (w : World) (s : string)
    (rest : list string) :
  string_data (scalars data) = s :: rest ->
  fds w !! fd = Some ino ->
  writes_plan (os w) = [WriteError] ->
  total_size rest <= Int.SSIZE_MAX ->
  exists w',
    WriteFieldData fd VARCHAR data size w = (Ret (total_size rest - 1), w')
    /\ file_content w' ino
       = file_content w ino ++ concat (map string_bytes rest)
    /\ log w'
       = log w ++ SysWrite fd (string_size s) (-1)
         :: map (fun t => SysWrite fd (string_size t) (string_size t)) rest.
Proof.
  intros Hdata Hfd Hplan Hfit. cbn [WriteFieldData]. rewrite Hdata.
  cbn [write_strings]. unfold mbind, M_bind.
  unfold sys_write at 1, next_write_answer.
  destruct (Z.ltb_spec (len (string_bytes s)) (string_size s)) as [Hbad|_];
    [unfold len, string_size in Hbad; lia|].
  rewrite Hplan. cbn [head tail set_os fds]. rewrite Hfd.
  assert (Hcmp : Int.lt_ssize_size (-1) (string_size s) = false).
  { unfold Int.lt_ssize_size, Int.to_size_t.
    change ((-1) mod 2 ^ 64) with (2 ^ 64 - 1).
    pose proof (Z.mod_pos_bound (string_size s) (2 ^ 64)).
    apply Z.ltb_ge. lia. }
  rewrite Hcmp. change (Int.to_ssize_t (0 + -1)) with (-1).
  match goal with
  | |- context [write_strings fd rest (-1) ?x] => set (w1 := x)
  end.
  assert (Hgen : forall l acc w0,
            writes_plan (os w0) = [] -> fds w0 !! fd = Some ino ->
            exists w',
              write_strings fd l acc w0
              = (Ret (fold_left
                        (fun t s => Int.to_ssize_t (t + string_size s)) l acc),
                 w')
              /\ file_content w' ino
                 = file_content w0 ino ++ concat (map string_bytes l)
              /\ log w'
                 = log w0
                   ++ map (fun t => SysWrite fd (string_size t) (string_size t))
                        l).
  { induction l as [|t l IH]; intros acc w0 Hp0 Hf0.
    - exists w0. simpl. rewrite !app_nil_r. auto.
    - cbn [write_strings fold_left map concat]. unfold mbind, M_bind.
      rewrite (sys_write_full fd ino)
        by (assumption || (unfold string_size, len; lia)).
      rewrite lt_ssize_size_irrefl.
      match goal with
      | |- context [write_strings fd l ?a ?w2] =>
          destruct (IH a w2) as (w' & Hrun & Hfile & Hlog);
            [assumption | assumption |]
      end.
      exists w'. split; [exact Hrun|]. split.
      + rewrite Hfile. unfold record_call, file_content at 1. simpl.
        rewrite lookup_insert_eq. simpl.
        rewrite <- app_assoc. do 2 f_equal.
        apply take_ge. unfold string_size. lia.
      + rewrite Hlog. cbn [record_call append_to_file log].
        now rewrite <- app_assoc. }
  destruct (Hgen rest (-1) w1) as (w' & Hrun & Hfile & Hlog);
    [reflexivity | exact Hfd |].
  exists w'. rewrite Hrun.
  rewrite fold_ssize_from by lia.
  split; [f_equal; f_equal; lia|]. split.
  - rewrite Hfile. reflexivity.
  - rewrite Hlog. cbn [w1 record_call set_os log].
    now rewrite <- app_assoc.
Qed.

(** The tail of the file-backed path when it raises. *)
Lemma after_write_raises filepath fd written w e w' :
  after_write filepath fd written w = (Panic e, w') ->
  e = CloseFailed filepath
  \/ (names w' = names w /\ fds w' = fds w).
Proof.
  unfold after_write, mbind, M_bind, sys_fsync.
  destruct (fsync_ok (os w) && _);
    cbn [Z.eqb AssertInfo lift mret M_ret];
    [|intros [= <- <-]; right; auto].
  destruct (Z.eqb_spec written 0) as [-> | Hne]; [discriminate|].
  unfold sys_mmap_file.
  cbn [record_call set_maps os fds names maps dirs inodes log].
  destruct (fds w !! fd) as [ino|] eqn:Hfd;
    [destruct (mmap_ok (os w) && _)|];
    cbn [ptr_eqb negb AssertInfo lift mret M_ret];
    try (intros [= <- <-]; right; auto).
  unfold sys_unlink.
  cbn [record_call set_maps os fds names maps dirs inodes log].
  destruct (unlink_ok (os w) && _);
    cbn [Z.eqb AssertInfo lift mret M_ret];
    [|intros [= <- <-]; right; auto].
  unfold sys_close.
  cbn [record_call set_maps os fds names maps dirs inodes log].
  rewrite Hfd.
  destruct (close_ok (os w) && _);
    cbn [Z.eqb AssertInfo lift mret M_ret]; [discriminate|].
  intros [= <- <-]. left. reflexivity.
Qed.

(** X16.  A file-backed [CreateMap] that raises after the file was
    opened, at any point before the close, leaves the file named in its
    directory and the descriptor open. *)
Theorem CreateMap_failure_leaves_file (segment_id : Z)
    (field_meta : FieldMeta) (info : LoadFieldDataInfo) (mmap_dir : Path)
    (w w' : World) (e : Failure) :
  mmap_dir_path info = Some mmap_dir ->
  CreateMap segment_id field_meta info w = (Panic e, w') ->
  let filepath :=
    mmap_dir ++ [to_string segment_id; to_string (field_id info)] in
  e <> CreateDirectoriesFailed (take (length filepath - 1) filepath) ->
  e <> CreateFileFailed filepath ->
  e <> CloseFailed filepath ->
  exists fd ino,
    names w' !! filepath = Some ino
    /\ fds w' !! fd = Some ino
    /\ In (SysOpen filepath fd) (log w').
Proof.
  intros Hdir Hrun filepath Hmkdir Hcreate Hclose.
  rewrite (CreateMap_file_unfold _ _ _ _ _ Hdir) in Hrun.
  cbv zeta in Hrun. fold filepath in Hrun.
  destruct (create_directories _ w) as [r1 w1] eqn:Hmk.
  apply create_directories_cases in Hmk as (_ & _ & _ & [-> | ->]);
    [|injection Hrun as <- <-; contradiction].
  destruct (sys_open filepath w1) as [r2 w2] eqn:Hopen.
  apply sys_open_cases in Hopen as (fd & -> & Hlog2 & Hopened).
  destruct (Z.eqb_spec fd (-1)) as [|Hfd];
    [injection Hrun as <- <-; contradiction|].
  destruct (Hopened Hfd) as (ino & Hname & Hdesc).
  destruct (WriteFieldData _ _ _ _ w2) as [r3 w3] eqn:Hwrite.
  apply WriteFieldData_keeps in Hwrite
    as (Hnames & Hfds & _ & writes & Hlog3 & _ & _).
  assert (Hin3 : In (SysOpen filepath fd) (log w3)).
  { rewrite Hlog3, Hlog2. apply in_or_app. left.
    apply in_or_app. right. now left. }
  assert (H3 : names w3 !! filepath = Some ino /\ fds w3 !! fd = Some ino)
    by (rewrite Hnames, Hfds; auto).
  exists fd, ino.
  destruct r3 as [written| |]; try discriminate Hrun.
  - destruct (_ || _); [|injection Hrun as <- <-; tauto].
    pose proof (after_write_extends 0 _ _ _ _ _ _ Hrun)
      as (calls & Hlog & _).
    apply after_write_raises in Hrun as [-> | [Hn Hf]]; [contradiction|].
    rewrite Hn, Hf, Hlog. split; [tauto|]. split; [tauto|].
    apply in_or_app. now left.
  - injection Hrun as <- <-. tauto.
Qed.

Lemma after_write_tail_calls filepath fd written w r w' :
  after_write filepath fd written w = (r, w') ->
  extends is_tail_call w w'.
Proof.
  intros Hrun. apply after_write_cases in Hrun
    as [[_ ->] | [(_ & _ & ->) | (_ & _ & p & calls & Hlog & Hcalls)]].
  - eapply extends_one; [reflexivity | exact I].
  - eapply extends_one; [reflexivity | exact I].
  - eexists. split; [exact Hlog|].
    repeat (constructor; [exact I|]).
    eapply Forall_impl; [exact Hcalls|].
    intros c [ret [-> | ->]]; exact I.
Qed.

Lemma extends_impl (P Q : Syscall -> Prop) w w' :
  (forall c, P c -> Q c) -> extends P w w' -> extends Q w w'.
Proof.
  intros Himpl (calls & Hlog & Hall). exists calls.
  split; [exact Hlog|]. eapply Forall_impl; eauto.
Qed.

Lemma to_string_inj z1 z2 : to_string z1 = to_string z2 -> z1 = z2.
Proof.
  unfold to_string. intros Heq.
  apply (f_equal NilZero.int_of_string) in Heq.
  assert (Hok : forall z, NilZero.int_of_string
                            (NilZero.string_of_int (Z.to_int z))
                          = Some (Z.to_int z)).
  { intros z. apply NilZero.isi.
    - destruct z; simpl; try discriminate.
      intros [= H]. now apply DecimalPos.Unsigned.to_uint_nonnil in H.
    - destruct z; simpl; try discriminate.
      intros [= H]. now apply DecimalPos.Unsigned.to_uint_nonnil in H. }
  rewrite !Hok in Heq. injection Heq as Heq.
  now apply DecimalZ.to_int_inj.
Qed.

(** X18.  The only file a file-backed [CreateMap] opens is
    [<mmap_dir>/<segment_id>/<field_id>], and under one directory two
    requests get the same file only when segment and field identifiers
    agree. *)
Theorem CreateMap_file_of_request (segment_id : Z) (field_meta : FieldMeta)
    (info : LoadFieldDataInfo) (mmap_dir : Path) (w w' : World)
    (r : outcome ptr) :
  mmap_dir_path info = Some mmap_dir ->
  CreateMap segment_id field_meta info w = (r, w') ->
  let filepath :=
    mmap_dir ++ [to_string segment_id; to_string (field_id info)] in
  (exists calls,
     log w' = log w ++ calls
     /\ forall p fd, In (SysOpen p fd) calls -> p = filepath)
  /\ forall segment_id' field_id',
       mmap_dir ++ [to_string segment_id'; to_string field_id'] = filepath ->
       segment_id' = segment_id /\ field_id' = field_id info.
Proof.
  intros Hdir Hrun filepath. split.
  - rewrite (CreateMap_file_unfold _ _ _ _ _ Hdir) in Hrun.
    cbv zeta in Hrun. fold filepath in Hrun.
    assert (Hgoal : extends (opens_only filepath) w w').
    { destruct (create_directories _ w) as [r1 w1] eqn:Hmk.
      apply create_directories_cases in Hmk as (Hlog1 & _ & _ & Hr1).
      assert (H1 : extends (opens_only filepath) w w1)
        by (eapply extends_one; [exact Hlog1 | intros ? ? [=]]).
      destruct Hr1 as [-> | ->]; [|injection Hrun as <- <-; exact H1].
      destruct (sys_open filepath w1) as [r2 w2] eqn:Hopen.
      apply sys_open_cases in Hopen as (fd & -> & Hlog2 & _).
      assert (H2 : extends (opens_only filepath) w w2).
      { eapply extends_trans; [exact H1|].
        eapply extends_one; [exact Hlog2 | now intros ? ? [= <- _]]. }
      destruct (fd =? -1); [injection Hrun as <- <-; exact H2|].
      destruct (WriteFieldData _ _ _ _ w2) as [r3 w3] eqn:Hwrite.
      apply WriteFieldData_keeps in Hwrite
        as (_ & _ & _ & calls & Hlog3 & Hwrites & _).
      assert (H3 : extends (opens_only filepath) w w3).
      { eapply extends_trans; [exact H2|]. exists calls.
        split; [exact Hlog3|]. eapply Forall_impl; [exact Hwrites|].
        intros c (count & ret & ->) ? ? [=]. }
      destruct r3 as [written|e|]; try (injection Hrun as <- <-; exact H3).
      destruct (_ || _); [|injection Hrun as <- <-; exact H3].
      eapply extends_trans; [exact H3|].
      eapply extends_impl; [|eapply after_write_tail_calls; exact Hrun].
      intros c Hc p fd' ->. destruct Hc. }
    destruct Hgoal as (calls & Hlog & Hall). exists calls.
    split; [exact Hlog|]. intros p fd Hin.
    rewrite Forall_forall in Hall. apply list_elem_of_In in Hin.
    exact (Hall _ Hin p fd eq_refl).
  - intros segment_id' field_id' Heq. unfold filepath in Heq.
    apply app_inv_head in Heq. injection Heq as Hs Hf.
    split; now apply to_string_inj.
Qed.

End Materialise.

(** * The utilities *)

(** ** Rounding *)

Lemma in_int64_spec z : in_int64 z = true <-> INT64_MIN <= z <= INT64_MAX.
Proof. unfold in_int64. rewrite andb_true_iff, !Z.leb_le. reflexivity. Qed.

Lemma int64_Done z : INT64_MIN <= z <= INT64_MAX -> int64 z = Done z.
Proof. intros Hz. unfold int64. now rewrite (proj2 (in_int64_spec z) Hz). Qed.

(** Quotient and remainder of the truncating division, for a positive
    divisor. *)
Lemma quot_rem_pos value align :
  0 < align ->
  value = align * Z.quot value align + Z.rem value align
  /\ (0 <= value -> 0 <= Z.rem value align < align)
  /\ (value <= 0 -> - align < Z.rem value align <= 0).
Proof.
  intros Ha. split; [apply Z.quot_rem'|]. split; intros Hv.
  - apply Z.rem_bound_pos; lia.
  - replace value with (- - value) at 1 2 by lia.
    rewrite Z.rem_opp_l'.
    pose proof (Z.rem_bound_pos (- value) align). lia.
Qed.

(** X1.  [upper_div] is the ceiling of the quotient for a non-negative
    value and never overflows: the groups it returns cover the value,
    and one group less would not. *)
Theorem upper_div_is_ceiling (value align : Z) :
  INT64_MIN <= value <= INT64_MAX ->
  0 < align <= INT64_MAX ->
  exists groups,
    upper_div value align = Done groups
    /\ value <= groups * align
    /\ (0 <= value -> groups * align < value + align)
    /\ (0 <= value -> 0 <= groups <= value).
Proof.
  intros Hv Ha. unfold upper_div, upper_groups.
  destruct (Z.ltb_spec 0 align) as [_|]; [|lia].
  destruct (quot_rem_pos value align (proj1 Ha)) as (Hqr & Hpos & Hneg).
  set (q := Z.quot value align) in *. set (r := Z.rem value align) in *.
  eexists. split.
  - apply int64_Done. unfold INT64_MIN, INT64_MAX in *.
    destruct (Z.eqb_spec r 0); destruct (Z.le_ge_cases 0 value); nia.
  - destruct (Z.eqb_spec r 0); repeat split; intros;
      destruct (Z.le_ge_cases 0 value); try nia.
Qed.

(** X2.  For a non-negative value [upper_align] returns the least
    multiple of [align] that is not below the value, when that multiple
    is representable; when it is not, the multiplication overflows. *)
Theorem upper_align_least_multiple (value align : Z) :
  0 <= value <= INT64_MAX ->
  0 < align <= INT64_MAX ->
  exists r,
    (align | r)
    /\ value <= r < value + align
    /\ (forall m, (align | m) -> value <= m -> r <= m)
    /\ upper_align value align
       = if r <=? INT64_MAX then Done r else SignedOverflow.
Proof.
  intros Hv Ha. unfold upper_align, upper_groups.
  destruct (Z.ltb_spec 0 align) as [_|]; [|lia].
  destruct (quot_rem_pos value align (proj1 Ha)) as (Hqr & Hpos & _).
  specialize (Hpos (proj1 Hv)).
  set (q := Z.quot value align) in *. set (r := Z.rem value align) in *.
  set (g := q + (if r =? 0 then 0 else 1)).
  assert (Hg : 0 <= g <= value /\ value <= g * align < value + align).
  { unfold g. destruct (Z.eqb_spec r 0); nia. }
  rewrite int64_Done by (unfold INT64_MIN, INT64_MAX in *; lia).
  cbn [checked_bind].
  exists (g * align). split; [exists g; reflexivity|].
  split; [lia|]. split.
  - intros m [k ->] Hm.
    assert (Hgk : g < k + 1).
    { apply (Z.mul_lt_mono_pos_r align); [lia|].
      replace ((k + 1) * align) with (k * align + align) by ring. lia. }
    apply Z.mul_le_mono_nonneg_r; lia.
  - unfold int64, in_int64.
    destruct (Z.leb_spec INT64_MIN (g * align)) as [_|Hlow];
      [reflexivity | unfold INT64_MIN in Hlow; nia].
Qed.

(** X3.  [upper_align] is idempotent: aligning an aligned value returns
    it. *)
Theorem upper_align_idempotent (value align r : Z) :
  upper_align value align = Done r ->
  upper_align r align = Done r.
Proof.
  unfold upper_align, upper_groups.
  destruct (Z.ltb_spec 0 align) as [Ha|]; [|discriminate].
  set (g := Z.quot value align + _).
  unfold int64 at 1. destruct (in_int64 g) eqn:Hg; [|discriminate].
  cbn [checked_bind]. unfold int64 at 1.
  destruct (in_int64 (g * align)) eqn:Hr; [|discriminate].
  intros [= <-].
  rewrite Z.quot_mul, Z.rem_mul by lia. cbn [Z.eqb]. rewrite Z.add_0_r.
  unfold int64. rewrite Hg. cbn [checked_bind]. now rewrite Hr.
Qed.

(** X4.  For a negative value that is not a multiple of [align],
    [upper_align] returns the least multiple not below the value plus
    [align]: the division truncates towards zero and one group is added
    all the same. *)
Theorem upper_align_negative_overshoots (value align : Z) :
  INT64_MIN <= value < 0 ->
  0 < align <= INT64_MAX ->
  ~ (align | value) ->
  exists r,
    upper_align value align = Done r
    /\ (align | r)
    /\ (align | r - align) /\ value <= r - align
    /\ value + align < r < value + 2 * align.
Proof.
  intros Hv Ha Hnd. unfold upper_align, upper_groups.
  destruct (Z.ltb_spec 0 align) as [_|]; [|lia].
  destruct (quot_rem_pos value align (proj1 Ha)) as (Hqr & _ & Hneg).
  specialize (Hneg ltac:(lia)).
  assert (Hrem : Z.rem value align <> 0).
  { intros H0. apply Hnd. apply Z.rem_divide; [lia | exact H0]. }
  set (q := Z.quot value align) in *. set (r := Z.rem value align) in *.
  destruct (Z.eqb_spec r 0) as [|_]; [contradiction|].
  assert (Hq : q <= 0 /\ INT64_MIN <= q * align).
  { unfold INT64_MIN, INT64_MAX in *. split; nia. }
  rewrite int64_Done by (unfold INT64_MIN, INT64_MAX in *; nia).
  cbn [checked_bind].
  rewrite int64_Done by (unfold INT64_MIN, INT64_MAX in *; nia).
  exists ((q + 1) * align). split; [reflexivity|].
  split; [exists (q + 1); reflexivity|].
  split; [exists q; lia|]. nia.
Qed.

(** ** String matching *)

Lemma Z_of_byte_inj a b : Z_of_byte a = Z_of_byte b -> a = b.
Proof.
  unfold Z_of_byte. intros H. apply N2Z.inj in H.
  apply (f_equal Byte.of_N) in H. rewrite !Byte.of_to_N in H. congruence.
Qed.

Lemma Z_of_byte_nul c : Z_of_byte c = 0 <-> c = x00.
Proof.
  split; [|intros ->; reflexivity].
  intros H. apply Z_of_byte_inj. exact H.
Qed.

Lemma strncmp_prefix p : forall s t,
  x00 ∉ p ->
  (strncmp s (p ++ t) (length p) = Ret 0 <-> p `prefix_of` s)
  /\ (strncmp s (p ++ t) (length p) = Undefined
      <-> s `prefix_of` p /\ (length s < length p)%nat)
  /\ (forall e, strncmp s (p ++ t) (length p) <> Panic e).
Proof.
  induction p as [|c p IH]; intros s t Hnul.
  - simpl. split; [split; [intros _; apply prefix_nil | reflexivity]|].
    split; [|discriminate]. split; [discriminate | intros [_ H]; lia].
  - apply not_elem_of_cons in Hnul as [Hc Hp].
    destruct s as [|c1 s]; cbn [strncmp app length].
    + split; [split; [discriminate | intros [k Hk]; discriminate Hk]|].
      split; [|discriminate].
      split; [intros _; split; [apply prefix_nil | simpl; lia] | reflexivity].
    + destruct (Z.eqb_spec (Z_of_byte c1) (Z_of_byte c)) as [Heq | Hne].
      * apply Z_of_byte_inj in Heq. subst c1.
        destruct (Z.eqb_spec (Z_of_byte c) 0) as [H0 | _].
        { apply Z_of_byte_nul in H0. congruence. }
        destruct (IH s t Hp) as (H1 & H2 & H3).
        split; [rewrite H1; split; [apply prefix_cons | apply prefix_cons_inv_2]|].
        split; [|exact H3]. rewrite H2. cbn [length].
        split; intros [Hpre Hlen]; (split; [|lia]).
        -- now apply prefix_cons.
        -- now apply prefix_cons_inv_2 in Hpre.
      * assert (Hcc : c1 <> c) by congruence.
        split; [split; [intros [= H]; lia | intros Hpre; apply prefix_cons_inv_1 in Hpre; congruence]|].
        split; [|discriminate].
        split; [discriminate | intros [Hpre _]; apply prefix_cons_inv_1 in Hpre; congruence].
Qed.

Lemma PrefixMatch_true str prefix :
  PrefixMatch str prefix = Ret true
  <-> strncmp (sv_data str) (sv_data prefix) (sv_length prefix) = Ret 0.
Proof.
  unfold PrefixMatch.
  destruct (strncmp _ _ _) as [r| |]; [|split; discriminate..].
  destruct (Z.eqb_spec r 0) as [-> | Hr]; simpl; [tauto|].
  split; intros [= H]. contradiction.
Qed.

Lemma PrefixMatch_other str prefix :
  (PrefixMatch str prefix = Undefined
   <-> strncmp (sv_data str) (sv_data prefix) (sv_length prefix) = Undefined)
  /\ (forall e, PrefixMatch str prefix = Panic e
                <-> strncmp (sv_data str) (sv_data prefix) (sv_length prefix)
                    = Panic e).
Proof.
  unfold PrefixMatch.
  destruct (strncmp _ _ _) as [r| |]; [destruct (negb _)|..];
    split; try intros e; split; congruence.
Qed.

Lemma view_split (v : string_view) :
  (sv_length v <= length (sv_data v))%nat ->
  sv_data v = sv_chars v ++ drop (sv_length v) (sv_data v)
  /\ length (sv_chars v) = sv_length v.
Proof.
  intros Hv. unfold sv_chars. rewrite take_drop, length_take. split; [reflexivity | lia].
Qed.

(** X5.  [PrefixMatch] compares against the array behind [str], not
    against the view: for a prefix without NUL it returns true exactly
    when the prefix's characters are a prefix of the bytes from
    [str.data()] on, whatever [str.length()] is, and it reads past the
    end of that array exactly when the array is a proper prefix of the
    prefix. *)
Theorem PrefixMatch_compares_buffer (str prefix : string_view) :
  (sv_length prefix <= length (sv_data prefix))%nat ->
  x00 ∉ sv_chars prefix ->
  (PrefixMatch str prefix = Ret true
   <-> sv_chars prefix `prefix_of` sv_data str)
  /\ (PrefixMatch str prefix = Undefined
      <-> sv_data str `prefix_of` sv_chars prefix
          /\ (length (sv_data str) < sv_length prefix)%nat)
  /\ (forall e, PrefixMatch str prefix <> Panic e).
Proof.
  intros Hvalid Hnul.
  destruct (view_split prefix Hvalid) as [Hsplit Hlen].
  destruct (strncmp_prefix (sv_chars prefix) (sv_data str)
              (drop (sv_length prefix) (sv_data prefix)) Hnul)
    as (Hzero & Hundef & Hpanic).
  rewrite <- Hsplit, Hlen in Hzero, Hundef, Hpanic.
  rewrite PrefixMatch_true.
  destruct (PrefixMatch_other str prefix) as [Hu Hp].
  rewrite Hu. split; [exact Hzero|]. split; [exact Hundef|].
  intros e He. apply Hp in He. exact (Hpanic e He).
Qed.

Lemma prefix_before_nul (p s : list byte) :
  x00 ∉ p -> p `prefix_of` s ++ [x00] <-> p `prefix_of` s.
Proof.
  intros Hnul. split.
  - revert s. induction p as [|c p IH]; intros s Hpre; [apply prefix_nil|].
    apply not_elem_of_cons in Hnul as [Hc Hp].
    destruct s as [|c1 s]; simpl in Hpre.
    + apply prefix_cons_inv_1 in Hpre. congruence.
    + pose proof (prefix_cons_inv_1 _ _ _ _ Hpre) as ->.
      apply prefix_cons, IH; [assumption|].
      exact (prefix_cons_inv_2 _ _ _ _ Hpre).
  - intros Hpre. now apply prefix_app_r.
Qed.

(** X6.  On the view of a whole string, [PrefixMatch] with a prefix
    without NUL decides whether the prefix's characters are a prefix of
    the string's. *)
Theorem PrefixMatch_whole_string (s : string) (prefix : string_view) :
  (sv_length prefix <= length (sv_data prefix))%nat ->
  x00 ∉ sv_chars prefix ->
  PrefixMatch (view_of s) prefix
  = Ret (bool_decide (sv_chars prefix `prefix_of` string_bytes s)).
Proof.
  intros Hvalid Hnul.
  destruct (view_split prefix Hvalid) as [Hsplit Hlen].
  destruct (strncmp_prefix (sv_chars prefix) (string_bytes s ++ [x00])
              (drop (sv_length prefix) (sv_data prefix)) Hnul)
    as (Hzero & Hundef & Hpanic).
  rewrite <- Hsplit, Hlen in Hzero, Hundef, Hpanic.
  rewrite (prefix_before_nul _ _ Hnul) in Hzero.
  pose proof (PrefixMatch_true (view_of s) prefix) as Htrue.
  destruct (PrefixMatch_other (view_of s) prefix) as [Hu Hp].
  change (sv_data (view_of s)) with (string_bytes s ++ [x00]) in Htrue, Hu, Hp.
  destruct (PrefixMatch (view_of s) prefix) as [[|]| |] eqn:Hrun.
  - symmetry. f_equal. apply bool_decide_eq_true.
    apply Hzero, Htrue. reflexivity.
  - symmetry. f_equal. apply bool_decide_eq_false. intros Hpre.
    apply Hzero, Htrue in Hpre. discriminate Hpre.
  - exfalso. exact (Hpanic e (proj1 (Hp e) eq_refl)).
  - exfalso. destruct (proj1 Hundef (proj1 Hu eq_refl)) as [[k Hk] _].
    apply Hnul. rewrite Hk, !elem_of_app, list_elem_of_singleton. auto.
Qed.

Lemma strncmp_stops_at_nul p : forall s rest n,
  x00 ∉ p -> (length p < n)%nat ->
  strncmp s (p ++ x00 :: rest) n = Ret 0 <-> p ++ [x00] `prefix_of` s.
Proof.
  induction p as [|c p IH]; intros s rest n Hnul Hn;
    (destruct n as [|n]; [simpl in Hn; lia|]).
  - destruct s as [|c1 s]; cbn [strncmp app].
    + split; [discriminate | intros [k Hk]; discriminate Hk].
    + destruct (Z.eqb_spec (Z_of_byte c1) (Z_of_byte x00)) as [Heq | Hne].
      * apply Z_of_byte_inj in Heq. subst c1. cbn [Z_of_byte Byte.to_N Z.of_N Z.eqb].
        split; [intros _; apply prefix_cons, prefix_nil | reflexivity].
      * split; [intros [= H]; lia|].
        intros Hpre. apply prefix_cons_inv_1 in Hpre. congruence.
  - apply not_elem_of_cons in Hnul as [Hc Hp]. cbn [length] in Hn.
    destruct s as [|c1 s]; cbn [strncmp app].
    + split; [discriminate | intros [k Hk]; discriminate Hk].
    + destruct (Z.eqb_spec (Z_of_byte c1) (Z_of_byte c)) as [Heq | Hne].
      * apply Z_of_byte_inj in Heq. subst c1.
        destruct (Z.eqb_spec (Z_of_byte c) 0) as [H0 | _].
        { apply Z_of_byte_nul in H0. congruence. }
        rewrite IH by (assumption || lia).
        split; [apply prefix_cons | apply prefix_cons_inv_2].
      * split; [intros [= H]; lia|].
        intros Hpre. apply prefix_cons_inv_1 in Hpre. congruence.
Qed.

(** X7.  The characters of the prefix after its first NUL are not
    compared: [PrefixMatch] returns true exactly when the bytes behind
    [str] begin with the prefix up to and including that NUL. *)
Theorem PrefixMatch_stops_at_nul (str : string_view) (p rest : list byte)
    (n : nat) :
  x00 ∉ p ->
  (length p < n)%nat ->
  PrefixMatch str (mk_string_view (p ++ x00 :: rest) n) = Ret true
  <-> p ++ [x00] `prefix_of` sv_data str.
Proof.
  intros Hnul Hn. rewrite PrefixMatch_true. cbn [sv_data sv_length].
  now apply strncmp_stops_at_nul.
Qed.

Lemma to_int32_small z : 0 <= z < 2 ^ 31 -> to_int32 (Int.to_size_t z) = z.
Proof.
  intros Hz. unfold to_int32, Int.to_size_t.
  rewrite (Z.mod_small z) by lia. rewrite Z.mod_small by lia. lia.
Qed.

(** X8.  For a string shorter than 2^31 and a postfix without NUL,
    [PostfixMatch] decides whether the postfix is a suffix of the
    string's characters; it stays inside the view. *)
Theorem PostfixMatch_is_suffix (str : string_view) (postfix : string) :
  (sv_length str <= length (sv_data str))%nat ->
  Z.of_nat (sv_length str) < 2 ^ 31 ->
  x00 ∉ string_bytes postfix ->
  PostfixMatch str postfix
  = Ret (bool_decide (string_bytes postfix `suffix_of` sv_chars str)).
Proof.
  intros Hvalid Hsmall Hnul. unfold PostfixMatch, string_size.
  set (p := string_bytes postfix) in *.
  destruct (view_split str Hvalid) as [Hsplit Hlen].
  destruct (Z.ltb_spec (Z.of_nat (sv_length str)) (Z.of_nat (length p)))
    as [Hlong | Hshort].
  - f_equal. symmetry. apply bool_decide_eq_false. intros Hsuf.
    apply suffix_length in Hsuf. lia.
  - rewrite to_int32_small by lia.
    set (offset := Z.of_nat (sv_length str) - Z.of_nat (length p)).
    destruct (Z.ltb_spec offset 0) as [|_]; [lia|].
    destruct (Z.ltb_spec (len (sv_data str)) offset) as [Hbad|_];
      [unfold len in Hbad; lia|].
    cbn [orb].
    set (k := Z.to_nat offset).
    assert (Hk : (k + length p = sv_length str)%nat) by lia.
    destruct (strncmp_prefix p (drop k (sv_data str)) [x00] Hnul)
      as (Hzero & Hundef & Hpanic).
    change (c_str postfix) with (p ++ [x00]).
    assert (Hiff : p `prefix_of` drop k (sv_data str)
                   <-> p `suffix_of` sv_chars str).
    { set (B := take (length p) (drop k (sv_data str))).
      assert (HB : length B = length p)
        by (unfold B; rewrite length_take, length_drop; lia).
      assert (Hd : drop k (sv_data str)
                   = B ++ drop (length p) (drop k (sv_data str)))
        by (unfold B; now rewrite take_drop).
      assert (Hc : sv_chars str = take k (sv_data str) ++ B)
        by (unfold sv_chars, B; now rewrite take_take_drop, Hk).
      rewrite Hd, Hc. split.
      - intros [t Ht]. apply app_inj_1 in Ht as [-> _]; [|lia].
        now exists (take k (sv_data str)).
      - intros [t Ht]. apply app_inj_2 in Ht as [_ ->]; [|lia].
        now exists (drop (length p) (drop k (sv_data str))). }
    destruct (strncmp (drop k (sv_data str)) (p ++ [x00]) (length p))
      as [r| |] eqn:Hrun.
    + destruct (Z.eqb_spec r 0) as [-> | Hr]; cbn [negb]; f_equal; symmetry.
      * apply bool_decide_eq_true. apply Hiff, Hzero. reflexivity.
      * apply bool_decide_eq_false. intros Hsuf.
        apply Hiff, Hzero in Hsuf. congruence.
    + now contradiction (Hpanic e).
    + exfalso. destruct (proj1 Hundef eq_refl) as [_ Hl].
      rewrite length_drop in Hl. lia.
Qed.

Lemma Z_of_byte_range c : 0 <= Z_of_byte c <= 255.
Proof.
  unfold Z_of_byte. pose proof (Byte.to_N_bounded c). lia.
Qed.

Lemma tolower_nul c : tolower c = 0 <-> Z_of_byte c = 0.
Proof.
  unfold tolower. pose proof (Z_of_byte_range c).
  destruct (Z.leb_spec 65 (Z_of_byte c)), (Z.leb_spec (Z_of_byte c) 90);
    simpl; lia.
Qed.

Lemma strcasecmp_terminated a : forall b,
  exists r,
    strcasecmp (a ++ [x00]) (b ++ [x00]) = Ret r
    /\ (r = 0 <-> map tolower (until_nul a) = map tolower (until_nul b)).
Proof.
  induction a as [|c1 a IH]; intros [|c2 b]; cbn [app strcasecmp until_nul].
  - exists 0. split; [reflexivity | tauto].
  - change (tolower x00) with 0. change (Z_of_byte x00) with 0.
    pose proof (tolower_nul c2) as Hn.
    destruct (Z.eqb_spec 0 (tolower c2)) as [H0 | H0].
    + exists 0. split; [reflexivity|].
      symmetry in H0. apply Hn in H0. rewrite H0. simpl. tauto.
    + eexists. split; [reflexivity|].
      destruct (Z.eqb_spec (Z_of_byte c2) 0) as [Hz | Hz];
        [apply Hn in Hz; lia|].
      simpl. split; [lia | discriminate].
  - change (tolower x00) with 0.
    pose proof (tolower_nul c1) as Hn.
    destruct (Z.eqb_spec (tolower c1) 0) as [H0 | H0].
    + apply Hn in H0. rewrite H0. exists 0. simpl. tauto.
    + eexists. split; [reflexivity|].
      destruct (Z.eqb_spec (Z_of_byte c1) 0) as [Hz | Hz];
        [apply Hn in Hz; lia|].
      simpl. split; [lia | discriminate].
  - pose proof (tolower_nul c1) as Hn1. pose proof (tolower_nul c2) as Hn2.
    destruct (Z.eqb_spec (tolower c1) (tolower c2)) as [Heq | Hne].
    + destruct (Z.eqb_spec (Z_of_byte c1) 0) as [Hz | Hz].
      * exists 0. split; [reflexivity|].
        assert (Z_of_byte c2 = 0) as -> by (apply Hn2; rewrite <- Heq; now apply Hn1).
        simpl. tauto.
      * destruct (Z.eqb_spec (Z_of_byte c2) 0) as [Hz2 | Hz2].
        { exfalso. apply Hz, Hn1. rewrite Heq. now apply Hn2. }
        destruct (IH b) as (r & Hrun & Hr). exists r. split; [exact Hrun|].
        rewrite Hr. cbn [map]. rewrite Heq.
        split; [intros ->; reflexivity | intros [= H]; exact H].
    + eexists. split; [reflexivity|]. split; [lia|].
      intros Hmaps. exfalso.
      destruct (Z.eqb_spec (Z_of_byte c1) 0) as [Hz1 | Hz1],
               (Z.eqb_spec (Z_of_byte c2) 0) as [Hz2 | Hz2];
        cbn [map] in Hmaps; try discriminate Hmaps.
      * apply Hne. apply Hn1 in Hz1. apply Hn2 in Hz2. congruence.
      * injection Hmaps as Hh _. contradiction.
Qed.

Lemma IsMetricType_spec (a b : string) :
  IsMetricType a b
  = Ret (bool_decide (map tolower (until_nul (string_bytes a))
                      = map tolower (until_nul (string_bytes b)))).
Proof.
  unfold IsMetricType, c_str.
  destruct (strcasecmp_terminated (string_bytes a) (string_bytes b))
    as (r & -> & Hr).
  f_equal. destruct (Z.eqb_spec r 0) as [Hz | Hz]; symmetry.
  - apply bool_decide_eq_true. now apply Hr.
  - apply bool_decide_eq_false. intros H. now apply Hr in H.
Qed.

(** X9.  [IsMetricType] compares the two C strings (the characters
    before the first NUL) with ASCII letters lowered: it is reflexive,
    symmetric and transitive, and never reads out of bounds. *)
Theorem IsMetricType_compares_lowercase (a b : string) :
  IsMetricType a b
  = Ret (bool_decide (map tolower (until_nul (string_bytes a))
                      = map tolower (until_nul (string_bytes b))))
  /\ IsMetricType a a = Ret true
  /\ IsMetricType a b = IsMetricType b a
  /\ forall c,
       IsMetricType a b = Ret true -> IsMetricType b c = Ret true ->
       IsMetricType a c = Ret true.
Proof.
  split; [apply IsMetricType_spec|]. split; [|split].
  - rewrite IsMetricType_spec. f_equal. now apply bool_decide_eq_true.
  - rewrite !IsMetricType_spec. f_equal.
    apply bool_decide_ext. split; intros H; now symmetry.
  - intros c. rewrite !IsMetricType_spec.
    intros [= Hab] [= Hbc]. f_equal.
    apply bool_decide_eq_true in Hab, Hbc. apply bool_decide_eq_true.
    congruence.
Qed.

(** X19.  [PositivelyRelated] does not tell apart two metric type names
    that [IsMetricType] identifies, and it holds of the constant
    itself. *)
Theorem PositivelyRelated_respects_case (metric_IP a b : string) :
  IsMetricType a b = Ret true ->
  PositivelyRelated metric_IP a = PositivelyRelated metric_IP b
  /\ PositivelyRelated metric_IP metric_IP = Ret true.
Proof.
  unfold PositivelyRelated. rewrite !IsMetricType_spec.
  intros [= Hab]. apply bool_decide_eq_true in Hab.
  split; f_equal.
  - apply bool_decide_ext. now rewrite Hab.
  - now apply bool_decide_eq_true.
Qed.

(** ** Error texts *)

(** X10.  The error texts tell the statuses apart: a status the switch
    names and any other status never get the same text, so in
    particular no named status gets the default text. *)
Theorem MatchKnowhereError_distinct (s1 s2 : Status) :
  named_status s1 = true ->
  s1 <> s2 ->
  MatchKnowhereError s1 <> MatchKnowhereError s2.
Proof.
  intros Hnamed Hne Heq. apply Hne.
  destruct s1; try discriminate Hnamed; destruct s2;
    first [reflexivity | discriminate Heq].
Qed.

(** * Concrete runs *)

Lemma GetDataSize_size_correct_run :
  GetDataSize string_types_variable int32_field 3 FieldNotSet = Ret 12
  /\ GetDataSize string_types_variable varchar_field 3 three_strings = Ret 5
  /\ GetDataSize string_types_variable varchar_field 0 three_strings = Ret 5.
Proof.
  pose proof (GetDataSize_size_correct string_types_variable
                int32_field 3 FieldNotSet) as [Hfixed _].
  pose proof (GetDataSize_size_correct string_types_variable
                varchar_field 3 three_strings) as [_ Hstring].
  assert (Hfit : 0 <= 3 * get_sizeof int32_field <= Int.SIZE_MAX)
    by (vm_compute; split; discriminate).
  assert (Hsum : total_size (string_data (scalars three_strings))
                 <= Int.SIZE_MAX)
    by (vm_compute; discriminate).
  split; [|split].
  - exact (proj2 (Hfixed eq_refl) Hfit).
  - exact (proj1 (proj2 (Hstring eq_refl (or_introl eq_refl))) Hsum).
  - rewrite (proj2 (proj2 (Hstring eq_refl (or_introl eq_refl))) 0).
    exact (proj1 (proj2 (Hstring eq_refl (or_introl eq_refl))) Hsum).
Defined.

(** The three-string column of [strings_request] declared STRING: the
    size calculator gives it 5 bytes, and [FillField] rejects it. *)
Lemma FillField_string_column_rejected :
  enumerated STRING = true
  /\ GetDataSize string_types_variable (mkFieldMeta STRING 4) 3 three_strings
     = Ret 5
  /\ FillField LittleEndian STRING 5 strings_request (replicate 5 x00)
     = Panic Unsupported
  /\ FillField LittleEndian STRING 5 strings_request (replicate 5 x00)
     <> Ret (string_bytes "abcde").
Proof.
  split; [reflexivity|]. split; [reflexivity|]. split; [reflexivity|].
  discriminate.
Qed.

Lemma FillField_varchar_concatenates_run :
  FillField LittleEndian VARCHAR 5 strings_request (replicate 5 x00)
  = Ret (string_bytes "abcde")
  /\ FillField LittleEndian STRING 5 strings_request (replicate 5 x00)
     = Panic Unsupported.
Proof.
  assert (Hfit : total_size (string_data (scalars (field_data strings_request)))
                 <= len (replicate 5 x00))
    by (vm_compute; discriminate).
  pose proof (FillField_varchar_concatenates LittleEndian 5 strings_request
                (replicate 5 x00) Hfit) as (_ & Hexact & Hstring).
  split; [exact (Hexact eq_refl) | exact Hstring].
Defined.

Lemma narrowing_is_elementwise_run :
  FillField LittleEndian INT8 4 boundary_request (replicate 4 x00)
  = Ret [x7f; x80; xff; x00]
  /\ FillField LittleEndian INT16 8 boundary_request (replicate 8 x00)
     = Ret [x7f; x00; x80; xff; xff; x7f; x00; x80]
  /\ native_signed LittleEndian [x7f] = 127
  /\ native_signed LittleEndian [x80] = -128
  /\ native_signed LittleEndian [xff; x7f] = 32767
  /\ native_signed LittleEndian [x00; x80] = -32768.
Proof.
  assert (Hk : (4 <= length (int_data (scalars (field_data boundary_request))))%nat)
    by (vm_compute; lia).
  destruct (narrowing_is_elementwise LittleEndian boundary_request
              (replicate 4 x00) 4 3 0%nat (open_file_world []) Hk)
    as (Hint8 & _ & _ & Hread8 & Hread16).
  destruct (narrowing_is_elementwise LittleEndian boundary_request
              (replicate 8 x00) 4 3 0%nat (open_file_world []) Hk)
    as (_ & Hint16 & _ & _ & _).
  split; [|split; [|split; [|split; [|split]]]].
  - apply Hint8. vm_compute. lia.
  - apply Hint16. vm_compute. lia.
  - apply (proj2 (proj2 (Hread8 127))). lia.
  - apply (proj2 (proj2 (Hread8 (-128)))). lia.
  - apply (proj2 (proj2 (Hread16 32767))). lia.
  - apply (proj2 (proj2 (Hread16 (-32768)))). lia.
Defined.

(** The boundary column written to a file, and served both ways. *)
Lemma WriteFieldData_matches_FillField_run :
  (exists n w',
     WriteFieldData LittleEndian 3 INT16 boundary_ints 8 (open_file_world [])
     = (Ret n, w')
     /\ 0 <= n <= 8
     /\ file_content w' 0
        = take (Z.to_nat n) [x7f; x00; x80; xff; xff; x7f; x00; x80]
     /\ drop (Z.to_nat n) [x7f; x00; x80; xff; xff; x7f; x00; x80]
        = drop (Z.to_nat n) (replicate 8 x00))
  /\
  (let field := mkFieldMeta INT16 2 in
   let run := CreateMap string_types_variable LittleEndian 7 field
                boundary_request (empty_world cooperative) in
   exists a' wf' ds bytes,
     GetDataSize string_types_variable field (Int.to_size_t 4) boundary_ints
     = Ret ds
     /\ FillField LittleEndian INT16 ds boundary_request
          (replicate (Z.to_nat ds) x00)
        = Ret bytes
     /\ CreateMap string_types_variable LittleEndian 7 field
          (mkLoadFieldDataInfo 103 4 (Some sample_dir) boundary_ints)
          (empty_world cooperative)
        = (Ret (Addr a'), wf')
     /\ map_bytes <$> maps (snd run) !! 0%nat = Some bytes
     /\ map_bytes <$> maps wf' !! a' = Some bytes
     /\ names wf' !! (sample_dir ++ [to_string 7; to_string 103]) = None).
Proof.
  split.
  - assert (Hsize : 0 <= 8) by lia.
    assert (Hdst : len (replicate 8 x00) <= Int.SSIZE_MAX)
      by (vm_compute; discriminate).
    exact (proj1 (proj1 (WriteFieldData_matches_FillField
                           string_types_variable LittleEndian)
                    INT16 8 boundary_request (replicate 8 x00) 3 0%nat
                    (open_file_world []) eq_refl eq_refl Hsize Hdst)
             [x7f; x00; x80; xff; xff; x7f; x00; x80] eq_refl).
  - intros field run.
    apply (proj2 (WriteFieldData_matches_FillField string_types_variable
                    LittleEndian)
             7 field 103 4 boundary_ints sample_dir (empty_world cooperative)
             (snd run) (empty_world cooperative) 0%nat).
    + discriminate.
    + intros ds [= <-]. vm_compute. discriminate.
    + vm_compute. reflexivity.
    + reflexivity.
    + apply not_elem_of_empty.
    + intros p _. apply lookup_empty.
Defined.



(** The request without rows, served from a file in a cooperative
    environment: null comes back, and the empty file and its descriptor
    stay. *)
Lemma CreateMap_null_leaves_file_run :
  let run := CreateMap string_types_variable LittleEndian 7 int32_field
               empty_file_request (empty_world cooperative) in
  let file := ["var"; "mmap"; "7"; "101"]%string in
  fst run = Ret Null
  /\ names (snd run) !! file = Some 0%nat
  /\ fds (snd run) !! 0 = Some 0%nat
  /\ log (snd run)
     = [SysCreateDirectories ["var"; "mmap"; "7"]%string; SysOpen file 0;
        SysWrite 0 0 0; SysFsync 0 0]
  /\ exists fd ino writes,
       names (snd run) !! file = Some ino
       /\ fds (snd run) !! fd = Some ino
       /\ Forall (is_write_of fd) writes
       /\ log (snd run)
          = [] ++ SysCreateDirectories ["var"; "mmap"; "7"]%string
            :: SysOpen file fd :: writes ++ [SysFsync fd 0].
Proof.
  intros run file.
  assert (Hrun : CreateMap string_types_variable LittleEndian 7 int32_field
                   empty_file_request (empty_world cooperative)
                 = (Ret Null, snd run))
    by (vm_compute; reflexivity).
  split; [vm_compute; reflexivity|].
  split; [vm_compute; reflexivity|].
  split; [vm_compute; reflexivity|].
  split; [vm_compute; reflexivity|].
  exact (CreateMap_null_leaves_file string_types_variable LittleEndian 7
           int32_field empty_file_request sample_dir (empty_world cooperative)
           (snd run) eq_refl Hrun).
Defined.

(** Two int32 rows of which the kernel takes three bytes: fatal. *)
Lemma CreateMap_write_assertion_run :
  fst (CreateMap string_types_variable LittleEndian 7 int32_field
         int32_file_request (empty_world (answering [WriteShort 3])))
  = Panic (WriteFailed ["var"; "mmap"; "7"; "101"]%string 3 8).
Proof.
  set (w := empty_world (answering [WriteShort 3])).
  set (file := ["var"; "mmap"; "7"; "101"]%string).
  set (w1 := snd (create_directories ["var"; "mmap"; "7"]%string w)).
  set (w2 := snd (sys_open file w1)).
  set (w3 := snd (WriteFieldData LittleEndian 0 INT32
                    (field_data int32_file_request) 8 w2)).
  assert (Hmk : create_directories ["var"; "mmap"; "7"]%string w = (Ret tt, w1))
    by (vm_compute; reflexivity).
  assert (Hopen : sys_open file w1 = (Ret 0, w2))
    by (vm_compute; reflexivity).
  assert (Hfd : 0 <> -1) by discriminate.
  assert (Hwrite : WriteFieldData LittleEndian 0 INT32
                     (field_data int32_file_request) 8 w2 = (Ret 3, w3))
    by (vm_compute; reflexivity).
  pose proof (CreateMap_write_assertion string_types_variable LittleEndian 7
                int32_field int32_file_request sample_dir w w1 w2 w3 0 3
                eq_refl Hmk Hopen Hfd Hwrite) as (_ & Hfatal & _).
  now rewrite (Hfatal eq_refl eq_refl).
Defined.

(** A string column whose only write fails: the total reported is
    4 * 3, where the size calculator says 2. *)
Lemma CreateMap_file_expected_size_run :
  let run := CreateMap string_types_variable LittleEndian 7 varchar_field
               varchar_file_request (empty_world (answering [WriteError])) in
  fst run = Panic (WriteFailed ["var"; "mmap"; "7"; "102"]%string (-1) 12)
  /\ 12 = Int.to_size_t (get_sizeof varchar_field
                         * row_count varchar_file_request)
  /\ GetDataSize string_types_variable varchar_field
       (row_count varchar_file_request) (field_data varchar_file_request)
     = Ret 2.
Proof.
  intros run.
  assert (Hrun : CreateMap string_types_variable LittleEndian 7 varchar_field
                   varchar_file_request (empty_world (answering [WriteError]))
                 = (Panic (WriteFailed ["var"; "mmap"; "7"; "102"]%string
                             (-1) 12), snd run))
    by (vm_compute; reflexivity).
  split; [vm_compute; reflexivity|]. split; [|reflexivity].
  exact (proj1 (CreateMap_file_expected_size string_types_variable
                  LittleEndian 7 varchar_field varchar_file_request sample_dir
                  (empty_world (answering [WriteError])) (snd run) _
                  eq_refl Hrun)
           _ _ _ eq_refl).
Defined.

(** The string column served from anonymous memory while another file is
    open: the filesystem is as before, the one call is the [mmap]. *)
Lemma CreateMap_anonymous_frame_run :
  let run := CreateMap string_types_variable LittleEndian 7 varchar_field
               strings_request (open_file_world []) in
  fst run = Ret (Addr 0)
  /\ filesystem (snd run) = filesystem (open_file_world [])
  /\ exists calls,
       log (snd run) = log (open_file_world []) ++ calls
       /\ Forall (fun c => is_filesystem_call c = false) calls.
Proof.
  intros run.
  assert (Hrun : CreateMap string_types_variable LittleEndian 7 varchar_field
                   strings_request (open_file_world [])
                 = (Ret (Addr 0), snd run))
    by (vm_compute; reflexivity).
  split; [vm_compute; reflexivity|].
  exact (CreateMap_anonymous_frame string_types_variable LittleEndian 7
           varchar_field strings_request (open_file_world []) (snd run) _
           eq_refl Hrun).
Defined.

(** ** The utilities *)

Lemma upper_div_is_ceiling_run :
  exists groups,
    upper_div 10 4 = Done groups
    /\ 10 <= groups * 4
    /\ (0 <= 10 -> groups * 4 < 10 + 4)
    /\ (0 <= 10 -> 0 <= groups <= 10).
Proof.
  apply upper_div_is_ceiling; unfold INT64_MIN, INT64_MAX; lia.
Defined.

Lemma upper_align_least_multiple_run :
  exists r,
    (4 | r)
    /\ 10 <= r < 10 + 4
    /\ (forall m, (4 | m) -> 10 <= m -> r <= m)
    /\ upper_align 10 4 = if r <=? INT64_MAX then Done r else SignedOverflow.
Proof.
  apply upper_align_least_multiple; unfold INT64_MAX; lia.
Defined.

Lemma upper_align_idempotent_run : upper_align 12 4 = Done 12.
Proof. exact (upper_align_idempotent 10 4 12 eq_refl). Defined.

(** -5 aligned to 4 gives 0, where the least multiple not below -5 is -4. *)
Lemma upper_align_negative_overshoots_run :
  exists r,
    upper_align (-5) 4 = Done r
    /\ (4 | r)
    /\ (4 | r - 4) /\ -5 <= r - 4
    /\ -5 + 4 < r < -5 + 2 * 4.
Proof.
  apply upper_align_negative_overshoots.
  - unfold INT64_MIN. lia.
  - unfold INT64_MAX. lia.
  - intros [k Hk]. lia.
Defined.

(** The view of the first two characters of "abcd" has the prefix "abc". *)
Lemma PrefixMatch_compares_buffer_run :
  sv_chars ab_of_abcd = string_bytes "ab"
  /\ PrefixMatch ab_of_abcd (view_of "abc") = Ret true.
Proof.
  split; [reflexivity|].
  assert (Hvalid : (sv_length (view_of "abc")
                    <= length (sv_data (view_of "abc")))%nat)
    by (vm_compute; lia).
  assert (Hnul : x00 ∉ sv_chars (view_of "abc"))
    by (intros H; apply list_elem_of_In in H; vm_compute in H;
        intuition discriminate).
  apply (proj1 (PrefixMatch_compares_buffer ab_of_abcd (view_of "abc")
                  Hvalid Hnul)).
  exists [x64]. reflexivity.
Defined.

Lemma PrefixMatch_whole_string_run :
  PrefixMatch (view_of "milvus") (view_of "mil") = Ret true.
Proof.
  assert (Hvalid : (sv_length (view_of "mil")
                    <= length (sv_data (view_of "mil")))%nat)
    by (vm_compute; lia).
  assert (Hnul : x00 ∉ sv_chars (view_of "mil"))
    by (intros H; apply list_elem_of_In in H; vm_compute in H;
        intuition discriminate).
  rewrite (PrefixMatch_whole_string "milvus" (view_of "mil") Hvalid Hnul).
  reflexivity.
Defined.

(** The string "ab" has the five-character prefix a, b, NUL, c, d. *)
Lemma PrefixMatch_stops_at_nul_run :
  PrefixMatch (view_of "ab") ab_nul_cd = Ret true.
Proof.
  assert (Hnul : x00 ∉ [x61; x62])
    by (intros H; apply list_elem_of_In in H; vm_compute in H;
        intuition discriminate).
  assert (Hn : (length [x61; x62] < 5)%nat) by (simpl; lia).
  apply (proj2 (PrefixMatch_stops_at_nul (view_of "ab") [x61; x62]
                  [x63; x64] 5 Hnul Hn)).
  exists []. reflexivity.
Defined.

Lemma PostfixMatch_is_suffix_run :
  PostfixMatch (view_of "index.bin") ".bin" = Ret true.
Proof.
  assert (Hvalid : (sv_length (view_of "index.bin")
                    <= length (sv_data (view_of "index.bin")))%nat)
    by (vm_compute; lia).
  assert (Hsmall : Z.of_nat (sv_length (view_of "index.bin")) < 2 ^ 31)
    by (vm_compute; reflexivity).
  assert (Hnul : x00 ∉ string_bytes ".bin")
    by (intros H; apply list_elem_of_In in H; vm_compute in H;
        intuition discriminate).
  rewrite (PostfixMatch_is_suffix (view_of "index.bin") ".bin"
             Hvalid Hsmall Hnul).
  reflexivity.
Defined.

Lemma IsMetricType_compares_lowercase_run :
  IsMetricType "IP" "Ip" = Ret true.
Proof.
  exact (proj2 (proj2 (proj2 (IsMetricType_compares_lowercase "IP" "ip")))
           "Ip"%string eq_refl eq_refl).
Defined.

Lemma PositivelyRelated_respects_case_run :
  PositivelyRelated "IP" "ip" = PositivelyRelated "IP" "Ip"
  /\ PositivelyRelated "IP" "IP" = Ret true.
Proof.
  exact (PositivelyRelated_respects_case "IP" "ip" "Ip" eq_refl).
Defined.

Lemma MatchKnowhereError_distinct_run :
  MatchKnowhereError malloc_error <> MatchKnowhereError (other_status 99).
Proof.
  apply MatchKnowhereError_distinct; [reflexivity | discriminate].
Defined.

(** ** The materialisers *)

Lemma unsupported_exactly_when_not_materialised_run :
  FillField LittleEndian STRING 5 strings_request (replicate 5 x00)
  = Panic Unsupported
  /\ WriteFieldData LittleEndian 3 STRING (field_data strings_request) 5
       (open_file_world [])
     = (Panic Unsupported, open_file_world []).
Proof.
  exact (proj2 (proj2 (unsupported_exactly_when_not_materialised LittleEndian
                         STRING 5 strings_request (replicate 5 x00) 3
                         (open_file_world [])))
           eq_refl).
Defined.

Lemma raw_columns_read_back_run :
  exists dst',
    FillField BigEndian INT32 (Z.of_nat (4 * 4)) boundary_request
      (replicate 16 x00)
    = Ret dst'
    /\ drop (4 * 4) dst' = drop (4 * 4) (replicate 16 x00)
    /\ forall i v,
         (i < 4)%nat -> [127; -128; 32767; -32768] !! i = Some v ->
         let element := take 4 (drop (4 * i) dst') in
         element = native_bytes BigEndian 4 v
         /\ native_unsigned BigEndian element = v mod 256 ^ Z.of_nat 4
         /\ (INT32 = INT32 -> - 2 ^ 31 <= v < 2 ^ 31 ->
             native_signed BigEndian element = v)
         /\ (INT32 = INT64 -> - 2 ^ 63 <= v < 2 ^ 63 ->
             native_signed BigEndian element = v).
Proof.
  apply (raw_columns_read_back BigEndian INT32 boundary_request
           (replicate 16 x00) 4 4 [127; -128; 32767; -32768]).
  - reflexivity.
  - simpl. lia.
  - simpl. lia.
Defined.

(** The first of two strings fails to be written, the second is written
    in full: the result is 3 - 1. *)
Lemma WriteFieldData_continues_after_error_run :
  exists w',
    WriteFieldData LittleEndian 3 VARCHAR two_strings 5
      (open_file_world [WriteError])
    = (Ret (total_size ["cde"%string] - 1), w')
    /\ file_content w' 0
       = file_content (open_file_world [WriteError]) 0
         ++ concat (map string_bytes ["cde"%string])
    /\ log w'
       = log (open_file_world [WriteError])
         ++ SysWrite 3 (string_size "ab") (-1)
         :: map (fun t => SysWrite 3 (string_size t) (string_size t))
              ["cde"%string].
Proof.
  apply (WriteFieldData_continues_after_error LittleEndian 3 0%nat two_strings
           5 (open_file_world [WriteError]) "ab" ["cde"%string]).
  - reflexivity.
  - reflexivity.
  - reflexivity.
  - vm_compute. discriminate.
Defined.

(** ** CreateMap *)

Lemma CreateMap_anonymous_result_run :
  let w := open_file_world [] in
  let run := CreateMap string_types_variable LittleEndian 7 varchar_field
               strings_request w in
  fst run = Ret (Addr 0)
  /\ ((Addr 0 = Null
       /\ GetDataSize string_types_variable varchar_field
            (Int.to_size_t (row_count strings_request))
            (field_data strings_request) = Ret 0
       /\ snd run = w)
      \/ exists a data_size bytes,
           Addr 0 = Addr a
           /\ GetDataSize string_types_variable varchar_field
                (Int.to_size_t (row_count strings_request))
                (field_data strings_request) = Ret data_size
           /\ 0 < data_size
           /\ a = fresh_nat (maps w)
           /\ FillField LittleEndian (get_data_type varchar_field) data_size
                strings_request (replicate (Z.to_nat data_size) x00)
              = Ret bytes
           /\ len bytes = data_size
           /\ maps (snd run) = <[a := mkMapping bytes true None]> (maps w)
           /\ log (snd run) = log w ++ [SysMmapAnon data_size (Addr a)]).
Proof.
  intros w run.
  assert (Hrun : CreateMap string_types_variable LittleEndian 7 varchar_field
                   strings_request w = (Ret (Addr 0), snd run))
    by (vm_compute; reflexivity).
  split; [vm_compute; reflexivity|].
  exact (proj2 (CreateMap_anonymous_result string_types_variable LittleEndian
                  7 varchar_field strings_request w eq_refl)
           (Addr 0) (snd run) Hrun).
Defined.

Lemma CreateMap_file_success_run :
  let w := empty_world cooperative in
  let run := CreateMap string_types_variable LittleEndian 7 int32_field
               int32_file_request w in
  let filepath := ["var"; "mmap"; "7"; "101"]%string in
  fst run = Ret (Addr 0)
  /\ names (snd run) !! filepath = None
  /\ take (length filepath - 1) filepath ∈ dirs (snd run)
  /\ maps w !! 0%nat = None
  /\ exists fd ino written writes,
       fds (snd run) !! fd = None
       /\ written <> 0
       /\ maps (snd run) !! 0%nat
          = Some (mkMapping
                    (take (Z.to_nat (Int.to_size_t written))
                       (file_content (snd run) ino))
                    false (Some ino))
       /\ Forall (is_write_of fd) writes
       /\ log (snd run)
          = log w
            ++ SysCreateDirectories (take (length filepath - 1) filepath)
            :: SysOpen filepath fd
            :: writes
            ++ [SysFsync fd 0;
                SysMmapFile fd (Int.to_size_t written) (Addr 0);
                SysUnlink filepath 0; SysClose fd 0].
Proof.
  intros w run filepath.
  assert (Hrun : CreateMap string_types_variable LittleEndian 7 int32_field
                   int32_file_request w = (Ret (Addr 0), snd run))
    by (vm_compute; reflexivity).
  split; [vm_compute; reflexivity|].
  exact (CreateMap_file_success string_types_variable LittleEndian 7
           int32_field int32_file_request sample_dir w (snd run) 0%nat
           eq_refl Hrun).
Defined.

(** The kernel takes three of the eight bytes: the assertion is raised,
    and the file and its descriptor stay. *)
Lemma CreateMap_failure_leaves_file_run :
  let run := CreateMap string_types_variable LittleEndian 7 int32_field
               int32_file_request (empty_world (answering [WriteShort 3])) in
  let filepath := ["var"; "mmap"; "7"; "101"]%string in
  fst run = Panic (WriteFailed filepath 3 8)
  /\ exists fd ino,
       names (snd run) !! filepath = Some ino
       /\ fds (snd run) !! fd = Some ino
       /\ In (SysOpen filepath fd) (log (snd run)).
Proof.
  intros run filepath.
  assert (Hrun : CreateMap string_types_variable LittleEndian 7 int32_field
                   int32_file_request (empty_world (answering [WriteShort 3]))
                 = (Panic (WriteFailed filepath 3 8), snd run))
    by (vm_compute; reflexivity).
  split; [vm_compute; reflexivity|].
  apply (CreateMap_failure_leaves_file string_types_variable LittleEndian 7
           int32_field int32_file_request sample_dir
           (empty_world (answering [WriteShort 3])) (snd run)
           (WriteFailed filepath 3 8) eq_refl Hrun); discriminate.
Defined.


Lemma CreateMap_file_of_request_run :
  let w := empty_world cooperative in
  let run := CreateMap string_types_variable LittleEndian 7 int32_field
               int32_file_request w in
  let filepath := ["var"; "mmap"; "7"; "101"]%string in
  (exists calls,
     log (snd run) = log w ++ calls
     /\ forall p fd, In (SysOpen p fd) calls -> p = filepath)
  /\ forall segment_id' field_id',
       sample_dir ++ [to_string segment_id'; to_string field_id'] = filepath ->
       segment_id' = 7 /\ field_id' = 101.
Proof.
  intros w run filepath.
  exact (CreateMap_file_of_request string_types_variable LittleEndian 7
           int32_field int32_file_request sample_dir w (snd run) (fst run)
           eq_refl (surjective_pairing run)).
Defined.
